(** * bigolive-bot: the conversational core of [bot.py]

    A shallow embedding of the rate gate ([AntiFloodMiddleware]), the FAQ
    matcher ([normalize], [best_faq_answer]), the category and item lookups
    of the callback handlers, the application form ([Apply] and its handlers)
    and the order in which the router tries its handlers.

    Modelling conventions.
    - A Python [str] is a [string]; each [ascii] is read as one code point in
      U+0000..U+00FF (the Latin-1 range), where [str.lower], [str.isspace],
      [str.isdigit] and [int] are given by the small tables below.
      The properties of the form and of the matcher use these operations
      only through their results; the examples evaluate them.
    - A Python [int] is a [Z].
    - A Python [float] that is a score or a clock reading is an exact
      rational [Q]: the scores are quotients [2*M/T] of small integers and the
      clock readings are only subtracted and compared.
    - A JSON object with optional keys is a record of [option] fields.
    - The FSM storage of one user ([FSMContext]) is a record of the current
      state and the [data] dictionary, a [gmap string Value].
    - A handler is a computation in a small monad that threads the
      [FSMContext], collects what the handler sends, and may raise.
    - An event is what aiogram hands to the router: a message with its
      [text] and [caption], or a callback query with its data and the
      message it belongs to, which can be missing or inaccessible. The
      bot's own user name, with which aiogram's [Command] filter compares
      the mention of a command, is a parameter. *)

From Stdlib Require Import ZArith QArith Ascii String List Bool Lia Lqa.
From stdpp Require Import base option list strings gmap.
Import ListNotations.

Local Open Scope string_scope.
Local Open Scope Z_scope.

(** ** Text: Python [str] operations on the Latin-1 range *)

Module Text.

Definition code (c : ascii) : N := N_of_ascii c.

(** [str.isspace] for one character; also what [str.strip()] removes and
    what [\s] matches in a [str] pattern: TAB..CR, FS..US, SPACE, NEL and
    NO-BREAK SPACE. *)
Definition isspace (c : ascii) : bool :=
  let n := code c in
  ((9 <=? n) && (n <=? 13) || (28 <=? n) && (n <=? 32)
   || (n =? 133) || (n =? 160))%N.

(** [str.lower] for one character: A..Z and the capital letters
    U+00C0..U+00DE (without the multiplication sign U+00D7) move up by 32.
    In this range a character lowers to one character. Beyond it [str.lower]
    can give more code points than it takes (U+0130 gives two), so nothing
    below compares the length of a lowered text with the length of the
    text. *)
Definition lower_char (c : ascii) : ascii :=
  let n := code c in
  if ((65 <=? n) && (n <=? 90)
      || (192 <=? n) && (n <=? 222) && negb (n =? 215))%N
  then ascii_of_N (n + 32) else c.

Fixpoint lower (s : string) : string :=
  match s with
  | EmptyString => EmptyString
  | String c s' => String (lower_char c) (lower s')
  end.

Fixpoint lstrip (s : string) : string :=
  match s with
  | EmptyString => EmptyString
  | String c s' => if isspace c then lstrip s' else s
  end.

Fixpoint rstrip (s : string) : string :=
  match s with
  | EmptyString => EmptyString
  | String c s' =>
      match rstrip s' with
      | EmptyString => if isspace c then EmptyString else String c EmptyString
      | r => String c r
      end
  end.

(** [s.strip()] *)
Definition strip (s : string) : string := rstrip (lstrip s).

(** [re.sub(r"[\s]+", " ", s)]: every maximal run of whitespace becomes one
    space. [in_run] tells that the previous character was whitespace, so
    the run has already been replaced. *)
Fixpoint collapse_from (in_run : bool) (s : string) : string :=
  match s with
  | EmptyString => EmptyString
  | String c s' =>
      if isspace c
      then (if in_run then collapse_from true s'
            else String " " (collapse_from true s'))
      else String c (collapse_from false s')
  end.

Definition collapse_spaces (s : string) : string := collapse_from false s.

(** The character class of [re.sub(r"[.,!?()\-:;]", "", s)]. *)
Definition ispunct (c : ascii) : bool :=
  existsb (Ascii.eqb c) ["."; ","; "!"; "?"; "("; ")"; "-"; ":"; ";"]%char.

Fixpoint remove_punct (s : string) : string :=
  match s with
  | EmptyString => EmptyString
  | String c s' =>
      if ispunct c then remove_punct s' else String c (remove_punct s')
  end.

(** The decimal digits 0..9 (Unicode category Nd in this range). *)
Definition isdecimal_char (c : ascii) : bool :=
  let n := code c in ((48 <=? n) && (n <=? 57))%N.

(** [str.isdigit] for one character: the decimal digits and the
    superscript digits U+00B2, U+00B3, U+00B9. *)
Definition isdigit_char (c : ascii) : bool :=
  let n := code c in
  (isdecimal_char c || (n =? 178) || (n =? 179) || (n =? 185))%N.

Fixpoint forall_chars (p : ascii -> bool) (s : string) : bool :=
  match s with
  | EmptyString => true
  | String c s' => p c && forall_chars p s'
  end.

(** [s.isdigit()]: non-empty and every character is a digit. *)
Definition isdigit (s : string) : bool :=
  match s with
  | EmptyString => false
  | _ => forall_chars isdigit_char s
  end.

Definition digit_value (c : ascii) : Z := Z.of_N (code c) - 48.

(** The value of a run of digits and underscores as [int] reads it:
    [acc] is the value so far, [after_digit] tells that the previous
    character was a digit (an underscore is accepted only between two
    digits). *)
Fixpoint int_digits (after_digit : bool) (acc : Z) (s : string) : option Z :=
  match s with
  | EmptyString => if after_digit then Some acc else None
  | String c s' =>
      if isdecimal_char c then int_digits true (10 * acc + digit_value c) s'
      else if Ascii.eqb c "_" && after_digit
           then match s' with
                | EmptyString => None
                | String d _ =>
                    if isdecimal_char d then int_digits false acc s' else None
                end
           else None
  end.

(** [int(s)] in base 10: surrounding whitespace, an optional sign, decimal
    digits with single underscores between them; [None] stands for
    [ValueError]. CPython's limit on the number of digits (4300 unless
    configured) is above the 4096 characters of a Telegram message and is
    left out. *)
Definition int (s : string) : option Z :=
  match strip s with
  | String "+" r => int_digits false 0 r
  | String "-" r => Z.opp <$> int_digits false 0 r
  | r => int_digits false 0 r
  end.

(** [s.startswith(p)] *)
Fixpoint startswith (p s : string) : bool :=
  match p, s with
  | EmptyString, _ => true
  | String a p', String b s' => Ascii.eqb a b && startswith p' s'
  | String _ _, EmptyString => false
  end.

(** [s.split(sep)] for a one-character separator. *)
Fixpoint split_on (sep : ascii) (s : string) : list string :=
  match s with
  | EmptyString => [EmptyString]
  | String c s' =>
      if Ascii.eqb c sep then EmptyString :: split_on sep s'
      else match split_on sep s' with
           | w :: ws => String c w :: ws
           | [] => [String c EmptyString]
           end
  end.

(** The characters up to the first whitespace. *)
Fixpoint take_word (s : string) : string :=
  match s with
  | EmptyString => EmptyString
  | String c s' => if isspace c then EmptyString else String c (take_word s')
  end.

(** The first item of [s.split(maxsplit=1)], if there is one. *)
Definition first_word (s : string) : option string :=
  match lstrip s with
  | EmptyString => None
  | t => Some (take_word t)
  end.

(** [s.partition(sep)[0]] *)
Fixpoint before (sep : ascii) (s : string) : string :=
  match s with
  | EmptyString => EmptyString
  | String c s' => if Ascii.eqb c sep then EmptyString else String c (before sep s')
  end.

(** [s.partition(sep)[2]] *)
Fixpoint after (sep : ascii) (s : string) : string :=
  match s with
  | EmptyString => EmptyString
  | String c s' => if Ascii.eqb c sep then s' else after sep s'
  end.

(** No character of the text is one of the punctuation characters. *)
Definition no_punct (s : string) : bool :=
  forall_chars (fun c => negb (ispunct c)) s.

(** Whitespace is single spaces: [after_space] tells that the text follows
    a whitespace character. *)
Fixpoint single_spaced (after_space : bool) (s : string) : bool :=
  match s with
  | EmptyString => true
  | String c s' =>
      if isspace c
      then Ascii.eqb c " " && negb after_space && single_spaced true s'
      else single_spaced false s'
  end.

End Text.

(** ** The FAQ matcher *)

(** [normalize] of bot.py. *)
Definition normalize (text : string) : string :=
  let text := Text.strip (Text.lower text) in
  let text := Text.collapse_spaces text in
  Text.remove_punct text.

(** *** The knowledge base of faq.json

    Every key is optional, as the code reads them with [dict.get]. *)

Record Item := mkItem {
  item_patterns : option (list string);   (* "patterns" *)
  item_answer : option string;            (* "answer" *)
  item_image : option string              (* "image" *)
}.

Record Category := mkCategory {
  cat_title : option string;              (* "title" *)
  cat_items : option (list Item)          (* "items" *)
}.

(** [d.get(key, default)] *)
Definition get_or {A} (field : option A) (default : A) : A :=
  match field with Some v => v | None => default end.

(** *** difflib's similarity ratio

    [SequenceMatcher(None, a, b).ratio()] is code of the Python library, not
    of this repository. The matcher below takes it as a parameter; this
    module gives the function difflib documents for sequences without junk
    (no junk predicate is passed, and the popularity heuristic only applies
    to a second sequence of 200 characters or more): the longest common
    block, leftmost in [a] and then in [b] among the longest, is taken and
    the pieces to its left and to its right are matched recursively; the
    ratio is twice the number of matched characters over the sum of the two
    lengths, and 1.0 when both are empty. *)
Module Difflib.

(** Length of the longest common prefix. *)
Fixpoint lcp (a b : list ascii) : nat :=
  match a, b with
  | x :: a', y :: b' => if Ascii.eqb x y then S (lcp a' b') else 0%nat
  | _, _ => 0%nat
  end.

(** A block [(i, j, k)]: [a[i:i+k] == b[j:j+k]]. *)
Definition Match : Type := nat * nat * nat.
Definition size (m : Match) : nat := snd m.

(** Candidates starting at position [i] of [a] (whose suffix from there is
    [a_i]) and at each position of [b] from [j] on; a strictly longer block
    replaces the best so far. *)
Fixpoint scan_b (a_i b_j : list ascii) (i j : nat) (best : Match) : Match :=
  match b_j with
  | [] => best
  | _ :: b' =>
      let k := lcp a_i b_j in
      scan_b a_i b' i (S j) (if (size best <? k)%nat then (i, j, k) else best)
  end.

Fixpoint scan_a (a_i b : list ascii) (i : nat) (best : Match) : Match :=
  match a_i with
  | [] => best
  | _ :: a' => scan_a a' b (S i) (scan_b a_i b i 0 best)
  end.

(** A block inside [a] and [b] whose two sides agree. *)
Definition valid (a b : list ascii) (m : Match) : Prop :=
  let '(i, j, k) := m in
  (i + k <= length a /\ j + k <= length b
   /\ take k (drop i a) = take k (drop j b))%nat.

(** [find_longest_match] over the whole of [a] and [b]. *)
Definition find_longest_match (a b : list ascii) : Match :=
  scan_a a b 0 (0, 0, 0)%nat.

(** The total size of the blocks of [get_matching_blocks]. The recursion of
    the library is a work queue; [fuel] bounds its depth, and any fuel above
    the length of [a] gives the same number. *)
Fixpoint matches (fuel : nat) (a b : list ascii) : nat :=
  match fuel with
  | O => 0
  | S fuel' =>
      let '(i, j, k) := find_longest_match a b in
      match k with
      | O => 0
      | _ =>
          (if (0 <? i)%nat && (0 <? j)%nat
           then matches fuel' (take i a) (take j b) else 0)
          + k
          + (if (i + k <? length a)%nat && (j + k <? length b)%nat
             then matches fuel' (drop (i + k) a) (drop (j + k) b) else 0)
      end
  end%nat.

(** [_calculate_ratio(matches, length)] *)
Definition calculate_ratio (m len : nat) : Q :=
  match len with
  | O => 1
  | S n => Z.of_nat (2 * m) # Pos.of_succ_nat n
  end.

Definition ratio (a b : string) : Q :=
  let la := list_ascii_of_string a in
  let lb := list_ascii_of_string b in
  calculate_ratio (matches (S (length la)) la lb) (length la + length lb).

End Difflib.

(** Comparison of two scores, [x < y]. *)
Definition Qltb (x y : Q) : bool := negb (Qle_bool y x).

(** The result of [best_faq_answer]: [None] stands for the empty dict. *)
Definition Answer : Type := option Item * Q.

Section KnowledgeIndex.

(** The similarity score, [SequenceMatcher(None, a, b).ratio()]. *)
Variable ratio : string -> string -> Q.

(** The module-level [CATEGORIES] loaded from faq.json. *)
Variable CATEGORIES : list Category.

(** The loop state [(best_item, best_score)]. *)
Definition Best : Type := option Item * Q.

(** The body of the innermost loop. *)
Definition consider (q : string) (item : Item) (best : Best) (pattern : string) : Best :=
  let score := ratio q (normalize pattern) in
  if Qltb (snd best) score then (Some item, score) else best.

Definition scan_item (q : string) (best : Best) (item : Item) : Best :=
  fold_left (consider q item) (get_or (item_patterns item) []) best.

Definition scan_category (q : string) (best : Best) (cat : Category) : Best :=
  fold_left (scan_item q) (get_or (cat_items cat) []) best.

(** [best_faq_answer] of bot.py. *)
Definition best_faq_answer (user_text : string) (threshold : Q) : Answer :=
  let q := normalize user_text in
  let best := fold_left (scan_category q) CATEGORIES (None, 0%Q) in
  if Qle_bool threshold (snd best) then best else (None, snd best).

(** The call of [on_free_text], with the default threshold 0.63. *)
Definition resolve (utterance : string) : Answer :=
  best_faq_answer utterance (63 # 100).

(** The pairs the three nested loops meet, in the order they meet them:
    category order, then item order, then pattern order. *)
Definition item_scores (q : string) (item : Item) : list (Item * Q) :=
  map (fun p => (item, ratio q (normalize p))) (get_or (item_patterns item) []).

Definition category_scores (q : string) (cat : Category) : list (Item * Q) :=
  flat_map (item_scores q) (get_or (cat_items cat) []).

Definition scores (q : string) (cats : list Category) : list (Item * Q) :=
  flat_map (category_scores q) cats.

(** One step of the scan on a pair. *)
Definition better (best : Best) (p : Item * Q) : Best :=
  if Qltb (snd best) (snd p) then (Some (fst p), snd p) else best.

(** An item owns a pattern: it is an item of a category of the knowledge
    base and the pattern is one of its patterns. *)
Definition owns (item : Item) (pattern : string) : Prop :=
  exists cat, In cat CATEGORIES
    /\ In item (get_or (cat_items cat) [])
    /\ In pattern (get_or (item_patterns item) []).

End KnowledgeIndex.

(** ** The rate gate *)

(** The two event classes the middleware is installed for. *)
Inductive EventClass := IsMessage | IsCallbackQuery.

Record AntiFloodMiddleware := mkAntiFlood {
  limit_msg : Q;
  limit_cb : Q;
  _last_msg : gmap Z Q;
  _last_cb : gmap Z Q
}.

(** [AntiFloodMiddleware.__init__] *)
Definition AntiFlood_init (limit_msg limit_cb : Q) : AntiFloodMiddleware :=
  mkAntiFlood limit_msg limit_cb ∅ ∅.

(** The instance [af] that [main] installs on messages and callbacks. *)
Definition af : AntiFloodMiddleware := AntiFlood_init (8 # 10) (3 # 10).

(** What [__call__] does with the event: it returns without calling the
    handler ([answered] tells that [event.answer()] was called first), or it
    calls the handler. *)
Inductive Verdict := Dropped (answered : bool) | Passed.

(** [d.get(uid, 0.0)] *)
Definition last_or_zero (d : gmap Z Q) (uid : Z) : Q := default 0%Q (d !! uid).

(** [AntiFloodMiddleware.__call__]; [now] is the reading of [monotonic()],
    [from_user] is [event.from_user.id] when the event has a sender. *)
Definition AntiFlood_call (self : AntiFloodMiddleware) (cls : EventClass)
    (from_user : option Z) (now : Q) : Verdict * AntiFloodMiddleware :=
  match from_user with
  | None => (Passed, self)
  | Some uid =>
      match cls with
      | IsMessage =>
          let last := last_or_zero (_last_msg self) uid in
          if Qltb (now - last) (limit_msg self) then (Dropped false, self)
          else (Passed,
                mkAntiFlood (limit_msg self) (limit_cb self)
                  (<[uid := now]> (_last_msg self)) (_last_cb self))
      | IsCallbackQuery =>
          let last := last_or_zero (_last_cb self) uid in
          if Qltb (now - last) (limit_cb self) then (Dropped true, self)
          else (Passed,
                mkAntiFlood (limit_msg self) (limit_cb self)
                  (_last_msg self) (<[uid := now]> (_last_cb self)))
      end
  end.

(** The intervals [main] configures, by event class: 0.8 s and 0.3 s. *)
Definition configured_interval (cls : EventClass) : Q :=
  match cls with IsMessage => 8 # 10 | IsCallbackQuery => 3 # 10 end.

(** The timestamp recorded for a user in a class. *)
Definition last_admitted (self : AntiFloodMiddleware) (cls : EventClass)
    (uid : Z) : option Q :=
  match cls with
  | IsMessage => _last_msg self !! uid
  | IsCallbackQuery => _last_cb self !! uid
  end.

(** ** The application form *)

(** The states of [class Apply(StatesGroup)]. *)
Module Apply.
Inductive t := name | age | contact | experience.
End Apply.

#[export] Instance Apply_eq_dec : EqDecision Apply.t.
Proof. solve_decision. Defined.

(** A value stored in the FSM data. *)
Inductive Value := VStr (s : string) | VInt (n : Z).

(** The storage of one user: [None] is the state of a user with no
    application in progress. *)
Record FSMContext := mkCtx {
  state : option Apply.t;
  data : gmap string Value
}.

Definition fresh : FSMContext := mkCtx None ∅.

Inductive Exn := AttributeError | ValueError | IndexError | KeyError.

(** The fixed texts of the handlers, and the texts built from the data. *)
Inductive Reply :=
  | Greeting                      (* on_start *)
  | HelpText                      (* on_help *)
  | ChooseCategory                (* on_faq *)
  | CategoryTitle (title : option string)
  | FaqAnswer (answer : string)
  | AskName                       (* start_apply *)
  | AskAge                        (* apply_name *)
  | AgeDigitsPlease               (* apply_age, not isdigit *)
  | AdultsOnly                    (* apply_age, under 18 *)
  | AskContact
  | AskExperience
  | ApplicationSent
  | ManagerContact
  | NotFound.

(** The word a button of [cb_category] is made of: a stored pattern, or
    the default word the source gives for an item without the key
    "patterns" (a word outside the Latin-1 range, kept as a constant). *)
Inductive Word := Pattern (p : string) | DefaultWord.

(** The text of such a button, [first_pattern.capitalize()]. The
    capitalised form is not computed: it can leave the Latin-1 range. *)
Inductive Label := Capitalize (w : Word).

(** The inline keyboard sent with a text. *)
Inductive Markup :=
  | NoMarkup
  | MainKb                                       (* build_main_kb() *)
  | CategoriesKb (titles : list (option string)) (* one button cat:idx each *)
  | ItemsKb (idx : Z) (labels : list Label).     (* buttons item:idx:i, and back *)

(** The summary sent to the manager. *)
Record Summary := mkSummary {
  sum_name : option Value;
  sum_age : option Value;
  sum_contact : option Value;
  sum_experience : option Value
}.

(** What a handler hands to the transport and to the log. *)
Inductive Out :=
  | Incoming (text : option string)        (* log_and_forward_incoming *)
  | Send (text : Reply) (kb : Markup)      (* send_and_log *)
  | SendPhoto (image caption : string)     (* bot.send_photo *)
  | EditText (text : Reply) (kb : Markup)  (* message.edit_text *)
  | AnswerCallback                         (* callback.answer() *)
  | Notify (summary : Summary).            (* to ADMIN_CHAT_ID, or printed *)

Record Res (A : Type) := mkRes {
  res_val : Exn + A;
  res_ctx : FSMContext;
  res_out : list Out
}.
Arguments mkRes {A}.
Arguments res_val {A}.
Arguments res_ctx {A}.
Arguments res_out {A}.

(** A handler body: it reads and writes the user's [FSMContext], emits
    [Out]s and may raise. What was written and sent before an exception
    stays. *)
Definition M (A : Type) : Type := FSMContext -> Res A.

#[export] Instance M_ret : MRet M := fun A x ctx => mkRes (inr x) ctx [].

#[export] Instance M_bind : MBind M := fun A B f m ctx =>
  let r := m ctx in
  match res_val r with
  | inl e => mkRes (inl e) (res_ctx r) (res_out r)
  | inr a =>
      let r' := f a (res_ctx r) in
      mkRes (res_val r') (res_ctx r') (res_out r ++ res_out r')
  end.

Definition raise {A} (e : Exn) : M A := fun ctx => mkRes (inl e) ctx [].
Definition emit (o : Out) : M unit := fun ctx => mkRes (inr tt) ctx [o].

(** [state.set_state], [state.update_data], [state.get_data], [state.clear] *)
Definition set_state (s : Apply.t) : M unit :=
  fun ctx => mkRes (inr tt) (mkCtx (Some s) (data ctx)) [].
Definition update_data (key : string) (v : Value) : M unit :=
  fun ctx => mkRes (inr tt) (mkCtx (state ctx) (<[key := v]> (data ctx))) [].
Definition get_data : M (gmap string Value) :=
  fun ctx => mkRes (inr (data ctx)) ctx [].
Definition clear : M unit := fun _ => mkRes (inr tt) fresh [].

(** [x] when the option holds it, else the exception. *)
Definition or_raise {A} (e : Exn) (x : option A) : M A :=
  match x with Some a => mret a | None => raise e end.

(** An incoming message: [text] and [caption] are [None] when the message
    has none (a photo has a caption and no text). *)
Record Message := mkMessage { text : option string; caption : option string }.

(** An incoming callback query. [cb_message] is [callback.message], the
    bot's own message that carries the button; it is [None] when the query
    comes without a message or with an inaccessible one (a button under an
    old message), on which reading [from_user] raises [AttributeError]. *)
Record CallbackQuery := mkCallback {
  cb_data : option string;
  cb_message : option Message
}.

Inductive Event := EvMessage (message : Message) | EvCallback (callback : CallbackQuery).

(** The helpers take the message object they are called with: [Some m] for
    a message, [None] for the missing or inaccessible message of a callback
    query. Both read [message.from_user.id] before anything else; a message
    that is there is taken to have its sender, as the messages of the
    private chats the bot serves have. *)
Definition log_and_forward_incoming (message : option Message) : M unit :=
  m ← or_raise AttributeError message;
  emit (Incoming (text m)).

Definition send_and_log (message : option Message) (t : Reply) (kb : Markup)
    : M unit :=
  _ ← or_raise AttributeError message;
  emit (Send t kb).

(** [message.text.strip()]: a message without text has [text = None]. *)
Definition text_strip (message : Message) : M string :=
  t ← or_raise AttributeError (text message); mret (Text.strip t).

(** [l[i]] for a Python list: a negative index counts from the end. *)
Definition getitem {A} (l : list A) (i : Z) : option A :=
  if 0 <=? i then l !! Z.to_nat i
  else if - Z.of_nat (length l) <=? i then l !! Z.to_nat (Z.of_nat (length l) + i)
  else None.

Section Handlers.

Variable ratio : string -> string -> Q.
Variable CATEGORIES : list Category.

(** [bot.me().username], the bot's own user name, which the [Command]
    filter compares the mention of a command with. *)
Variable me_username : option string.

Definition on_start (message : Message) : M unit :=
  log_and_forward_incoming (Some message);;
  send_and_log (Some message) Greeting MainKb.

Definition on_help (message : Message) : M unit :=
  log_and_forward_incoming (Some message);;
  send_and_log (Some message) HelpText NoMarkup.

(** [on_faq] is the handler of the command and is also called by [cb_faq]
    with [callback.message]. *)
Definition on_faq (message : option Message) : M unit :=
  log_and_forward_incoming message;;
  send_and_log message ChooseCategory (CategoriesKb (map cat_title CATEGORIES)).

Definition cb_faq (callback : CallbackQuery) : M unit :=
  on_faq (cb_message callback);;
  emit AnswerCallback.

(** [CATEGORIES[cidx]["items"][iidx]] of [cb_item]. *)
Definition item_at (cidx iidx : Z) : Exn + Item :=
  match getitem CATEGORIES cidx with
  | None => inl IndexError
  | Some cat =>
      match cat_items cat with
      | None => inl KeyError
      | Some items =>
          match getitem items iidx with
          | None => inl IndexError
          | Some item => inr item
          end
      end
  end.

(** [item.get("patterns", [default])[0]] of [cb_category], where the default
    is a list holding the default word; [None] stands for [IndexError]. *)
Definition first_pattern (item : Item) : option Word :=
  getitem (get_or (map Pattern <$> item_patterns item) [DefaultWord]) 0.

(** The texts of the buttons that the loop of [cb_category] makes, one for
    each item in order: [first_pattern.capitalize()]. *)
Fixpoint first_patterns (items : list Item) : option (list Label) :=
  match items with
  | [] => Some []
  | item :: rest =>
      p ← first_pattern item; ps ← first_patterns rest; Some (Capitalize p :: ps)
  end.

Definition cb_category (callback : CallbackQuery) : M unit :=
  d ← or_raise AttributeError (cb_data callback);
  part ← or_raise IndexError (Text.split_on ":" d !! 1%nat);
  idx ← or_raise ValueError (Text.int part);
  cat ← or_raise IndexError (getitem CATEGORIES idx);
  labels ← or_raise IndexError (first_patterns (get_or (cat_items cat) []));
  send_and_log (cb_message callback) (CategoryTitle (cat_title cat)) NoMarkup;;
  emit (EditText (CategoryTitle (cat_title cat)) (ItemsKb idx labels));;
  emit AnswerCallback.

Definition cb_item (callback : CallbackQuery) : M unit :=
  d ← or_raise AttributeError (cb_data callback);
  match Text.split_on ":" d with
  | [_; cidx; iidx] =>
      cidx ← or_raise ValueError (Text.int cidx);
      iidx ← or_raise ValueError (Text.int iidx);
      match item_at cidx iidx with
      | inl e => raise e
      | inr item =>
          send_and_log (cb_message callback)
            (FaqAnswer (get_or (item_answer item) "")) MainKb;;
          emit AnswerCallback
      end
  | _ => raise ValueError
  end.

(** [event if isinstance(event, Message) else event.message] *)
Definition message_of (event : Event) : option Message :=
  match event with EvMessage m => Some m | EvCallback c => cb_message c end.

Definition answer_if_callback (event : Event) : M unit :=
  match event with EvMessage _ => mret tt | EvCallback _ => emit AnswerCallback end.

Definition start_apply (event : Event) : M unit :=
  log_and_forward_incoming (message_of event);;
  send_and_log (message_of event) AskName NoMarkup;;
  set_state Apply.name;;
  answer_if_callback event.

Definition apply_name (message : Message) : M unit :=
  log_and_forward_incoming (Some message);;
  t ← text_strip message;
  update_data "name" (VStr t);;
  send_and_log (Some message) AskAge NoMarkup;;
  set_state Apply.age.

Definition apply_age (message : Message) : M unit :=
  log_and_forward_incoming (Some message);;
  age_text ← text_strip message;
  if negb (Text.isdigit age_text)
  then send_and_log (Some message) AgeDigitsPlease NoMarkup
  else
    age ← or_raise ValueError (Text.int age_text);
    if age <? 18 then send_and_log (Some message) AdultsOnly NoMarkup;; clear
    else
      update_data "age" (VInt age);;
      send_and_log (Some message) AskContact NoMarkup;;
      set_state Apply.contact.

Definition apply_contact (message : Message) : M unit :=
  log_and_forward_incoming (Some message);;
  t ← text_strip message;
  update_data "contact" (VStr t);;
  send_and_log (Some message) AskExperience NoMarkup;;
  set_state Apply.experience.

Definition apply_done (message : Message) : M unit :=
  log_and_forward_incoming (Some message);;
  t ← text_strip message;
  update_data "experience" (VStr t);;
  d ← get_data;
  clear;;
  send_and_log (Some message) ApplicationSent MainKb;;
  emit (Notify (mkSummary (d !! "name") (d !! "age") (d !! "contact")
                  (d !! "experience"))).

Definition contact (event : Event) : M unit :=
  log_and_forward_incoming (message_of event);;
  send_and_log (message_of event) ManagerContact MainKb;;
  answer_if_callback event.

(** Truth value of the dict an item is. *)
Definition item_truthy (item : Item) : bool :=
  bool_decide (is_Some (item_patterns item)) || bool_decide (is_Some (item_answer item))
  || bool_decide (is_Some (item_image item)).

Definition on_free_text (message : Message) : M unit :=
  log_and_forward_incoming (Some message);;
  match fst (resolve ratio CATEGORIES (get_or (text message) "")) with
  | Some item =>
      if item_truthy item then
        let answer := get_or (item_answer item) "" in
        match item_image item with
        | Some (String c i) => emit (SendPhoto (String c i) answer)
        | _ => send_and_log (Some message) (FaqAnswer answer) MainKb
        end
      else send_and_log (Some message) NotFound MainKb
  | None => send_and_log (Some message) NotFound MainKb
  end.

(** *** The router *)

(** [x] when it is a non-empty string: the truth value of an optional
    string. *)
Definition truthy (x : option string) : option string :=
  match x with Some (String c s) => Some (String c s) | _ => None end.

(** The text aiogram's [Command] filter reads, [message.text or
    message.caption]; [None] when the filter finds neither. *)
Definition command_text (message : Message) : option string :=
  match truthy (text message) with
  | Some t => Some t
  | None => truthy (caption message)
  end.

(** The filter's check of a mention: a command that mentions a user name is
    for this bot when the name is the bot's, letter case apart; a command
    without a mention is, and so is any command when the bot has no user
    name. *)
Definition mention_matches (mention : string) : bool :=
  match mention, truthy me_username with
  | String _ _, Some username =>
      String.eqb (Text.lower mention) (Text.lower username)
  | _, _ => true
  end.

(** The command a message carries for the [Command] filter: the first word
    of the text or caption, which starts with a slash, up to an at sign,
    with a mention after the at sign that is none but this bot's. *)
Definition command_of (message : Message) : option string :=
  t ← command_text message;
  w ← Text.first_word t;
  match w with
  | String c rest =>
      if Ascii.eqb c "/" && mention_matches (Text.after "@" rest)
      then Some (Text.before "@" rest)
      else None
  | EmptyString => None
  end.

Definition is_command (cmd : string) (message : Message) : bool :=
  bool_decide (command_of message = Some cmd).

Inductive Handler :=
  | h_on_start | h_on_help | h_on_faq | h_cb_faq | h_cb_category | h_cb_item
  | h_start_apply | h_apply_name | h_apply_age | h_apply_contact | h_apply_done
  | h_contact | h_on_free_text.

Definition in_state (s : option Apply.t) (st : option Apply.t) : bool :=
  bool_decide (st = s).

(** The handlers of [router.message], in the order they are registered,
    each with its filter. *)
Definition message_handlers (st : option Apply.t) (m : Message)
    : list (bool * Handler) :=
  [ (is_command "start" m, h_on_start);
    (is_command "help" m, h_on_help);
    (is_command "faq" m, h_on_faq);
    (is_command "apply" m, h_start_apply);
    (in_state (Some Apply.name) st, h_apply_name);
    (in_state (Some Apply.age) st, h_apply_age);
    (in_state (Some Apply.contact) st, h_apply_contact);
    (in_state (Some Apply.experience) st, h_apply_done);
    (is_command "contact" m, h_contact);
    (in_state None st, h_on_free_text) ].

Definition data_is (v : string) (c : CallbackQuery) : bool :=
  bool_decide (cb_data c = Some v).

Definition data_startswith (p : string) (c : CallbackQuery) : bool :=
  match cb_data c with Some d => Text.startswith p d | None => false end.

(** The handlers of [router.callback_query], in registration order. *)
Definition callback_handlers (c : CallbackQuery) : list (bool * Handler) :=
  [ (data_is "faq" c, h_cb_faq);
    (data_startswith "cat:" c, h_cb_category);
    (data_startswith "item:" c, h_cb_item);
    (data_is "apply" c, h_start_apply);
    (data_is "contact" c, h_contact) ].

(** The first handler whose filter passes. *)
Fixpoint first_match (hs : list (bool * Handler)) : option Handler :=
  match hs with
  | [] => None
  | (true, h) :: _ => Some h
  | (false, _) :: rest => first_match rest
  end.

Definition route (st : option Apply.t) (event : Event) : option Handler :=
  match event with
  | EvMessage m => first_match (message_handlers st m)
  | EvCallback c => first_match (callback_handlers c)
  end.

Definition run (h : Handler) (event : Event) : M unit :=
  match h, event with
  | h_on_start, EvMessage m => on_start m
  | h_on_help, EvMessage m => on_help m
  | h_on_faq, EvMessage m => on_faq (Some m)
  | h_cb_faq, EvCallback c => cb_faq c
  | h_cb_category, EvCallback c => cb_category c
  | h_cb_item, EvCallback c => cb_item c
  | h_start_apply, _ => start_apply event
  | h_apply_name, EvMessage m => apply_name m
  | h_apply_age, EvMessage m => apply_age m
  | h_apply_contact, EvMessage m => apply_contact m
  | h_apply_done, EvMessage m => apply_done m
  | h_contact, _ => contact event
  | h_on_free_text, EvMessage m => on_free_text m
  | _, _ => mret tt
  end.

(** One admitted event of a user whose storage is [ctx]: the routed
    handler runs; an event no handler takes changes nothing. *)
Definition handle (ctx : FSMContext) (event : Event) : Res unit :=
  match route (state ctx) event with
  | Some h => run h event ctx
  | None => mkRes (inr tt) ctx []
  end.

(** The storage after a sequence of events. *)
Definition handle_all (ctx : FSMContext) (events : list Event) : FSMContext :=
  fold_left (fun c e => res_ctx (handle c e)) events ctx.

(** The pairs the menus offer: [on_faq] makes a button [cat:idx] for every
    position of [CATEGORIES], and [cb_category] a button [item:idx:i] for
    every position of the category's items. *)
Definition rendered (cidx iidx : Z) : Prop :=
  exists cat items,
    0 <= cidx /\ CATEGORIES !! Z.to_nat cidx = Some cat
    /\ get_or (cat_items cat) [] = items
    /\ 0 <= iidx /\ (Z.to_nat iidx < length items)%nat.

End Handlers.

(** ** Vocabulary of the properties *)

(** The explicit navigation actions, and the events that carry them: the
    commands and the callback data the navigation handlers are registered
    for. The code registers no handler for cancelling; its events are taken
    to be the command [/cancel] and the callback data [cancel], after the
    pattern of the other actions. *)
Inductive NavAction :=
  | ShowCategories | ShowCategory | ShowItem | ShowContact | StartApplication
  | Cancel.

Definition nav_action (me : option string) (event : Event) : option NavAction :=
  match event with
  | EvMessage m =>
      if is_command me "faq" m then Some ShowCategories
      else if is_command me "apply" m then Some StartApplication
      else if is_command me "contact" m then Some ShowContact
      else if is_command me "cancel" m then Some Cancel
      else None
  | EvCallback c =>
      if data_is "faq" c then Some ShowCategories
      else if data_startswith "cat:" c then Some ShowCategory
      else if data_startswith "item:" c then Some ShowItem
      else if data_is "apply" c then Some StartApplication
      else if data_is "contact" c then Some ShowContact
      else if data_is "cancel" c then Some Cancel
      else None
  end.

(** The handler written for an action. *)
Definition nav_handler (a : NavAction) (event : Event) : option Handler :=
  match a, event with
  | ShowCategories, EvMessage _ => Some h_on_faq
  | ShowCategories, EvCallback _ => Some h_cb_faq
  | ShowCategory, _ => Some h_cb_category
  | ShowItem, _ => Some h_cb_item
  | ShowContact, _ => Some h_contact
  | StartApplication, _ => Some h_start_apply
  | Cancel, _ => None
  end.

(** The handlers that take the event as the next field of the form, and
    the handler that gives its text to [best_faq_answer]. *)
Definition takes_field_input (h : Handler) : bool :=
  match h with
  | h_apply_name | h_apply_age | h_apply_contact | h_apply_done => true
  | _ => false
  end.

Definition asks_matcher (h : Handler) : bool :=
  match h with h_on_free_text => true | _ => false end.

Definition is_callback (event : Event) : bool :=
  match event with EvCallback _ => true | EvMessage _ => false end.

(** The fields of the states a form in state [s] has passed. *)
Definition passed (s : option Apply.t) : list string :=
  match s with
  | None | Some Apply.name => []
  | Some Apply.age => ["name"]
  | Some Apply.contact => ["name"; "age"]
  | Some Apply.experience => ["name"; "age"; "contact"]
  end.

(** The data holds fields of passed states only. *)
Definition only_passed_fields (ctx : FSMContext) : Prop :=
  forall k, is_Some (data ctx !! k) -> In k (passed (state ctx)).

(** The start action: the command [/apply] and the callback data [apply]. *)
Definition is_start_action (me : option string) (event : Event) : bool :=
  match event with
  | EvMessage m => is_command me "apply" m
  | EvCallback c => data_is "apply" c
  end.

(** The event comes with a message whose sender can be read: a message
    itself, or a callback query whose message is accessible. *)
Definition message_accessible (event : Event) : bool :=
  match event with
  | EvMessage _ => true
  | EvCallback c => bool_decide (is_Some (cb_message c))
  end.

(** What one event can do to the storage of a user. *)
Inductive step : FSMContext -> FSMContext -> Prop :=
  | step_none ctx :
      step ctx ctx
  | step_start ctx :
      step ctx (mkCtx (Some Apply.name) (data ctx))
  | step_name ctx t :
      state ctx = Some Apply.name ->
      step ctx (mkCtx (Some Apply.age) (<["name" := VStr t]> (data ctx)))
  | step_age ctx a :
      state ctx = Some Apply.age -> 18 <= a ->
      step ctx (mkCtx (Some Apply.contact) (<["age" := VInt a]> (data ctx)))
  | step_minor ctx :
      state ctx = Some Apply.age ->
      step ctx (mkCtx None ∅)
  | step_contact ctx t :
      state ctx = Some Apply.contact ->
      step ctx (mkCtx (Some Apply.experience) (<["contact" := VStr t]> (data ctx)))
  | step_done ctx :
      state ctx = Some Apply.experience ->
      step ctx (mkCtx None ∅).

(** The invariant of the storage: no data without a form in progress, a
    field for every state passed, no field but the first three, and an age
    that is an integer of 18 or more. *)
Definition session_ok (ctx : FSMContext) : Prop :=
  (state ctx = None -> data ctx = ∅)
  /\ (forall k, In k (passed (state ctx)) -> is_Some (data ctx !! k))
  /\ (forall k, is_Some (data ctx !! k) -> In k ["name"; "age"; "contact"])
  /\ (forall v, data ctx !! "age" = Some v -> exists a, v = VInt a /\ 18 <= a).

(** A computation that leaves the storage alone. *)
Definition pure {A} (m : M A) : Prop := forall ctx, res_ctx (m ctx) = ctx.

(** ** Sample data and tactics *)

Definition item_demo : Item :=
  mkItem (Some ["How to start?"; "start streaming"]) (Some "Press Go Live.") None.

Definition kb_demo : list Category :=
  [ mkCategory (Some "General") (Some [item_demo]); mkCategory None None ].

(** Two items whose patterns are the same after normalization. *)
Definition twin_a : Item := mkItem (Some ["hi"]) (Some "A") None.
Definition twin_b : Item := mkItem (Some ["Hi!"]) (Some "B") None.
Definition kb_twins : list Category := [ mkCategory None (Some [twin_a; twin_b]) ].

(** The user name of the bot in the examples. *)
Definition bot_name : option string := Some "bigolive_bot".

(** A text message, and a press of a button under an accessible menu message
    of the bot. *)
Definition msg (t : string) : Event := EvMessage (mkMessage (Some t) None).
Definition menu_message : Message := mkMessage (Some "Menu") None.
Definition cbq (d : string) : Event :=
  EvCallback (mkCallback (Some d) (Some menu_message)).

(** A press of a button under a message that is no longer accessible. *)
Definition cbq_old (d : string) : Event := EvCallback (mkCallback (Some d) None).

(** A user who has given a name and is asked for the age. *)
Definition ctx_age : FSMContext :=
  mkCtx (Some Apply.age) {[ "name" := VStr "Ivan" ]}.

(** The middleware after it has passed a message of user 7 at time 10. *)
Definition af_after_first : AntiFloodMiddleware :=
  snd (AntiFlood_call af IsMessage (Some 7) 10).

(** Proves a fact about one character by trying all of them. *)
Ltac each_char c := destruct c as [[] [] [] [] [] [] [] []]; reflexivity.

(** Unfolds a handler body down to the result record. *)
Ltac run_handler :=
  unfold apply_name, apply_age, apply_contact, apply_done, start_apply, contact,
    on_start, on_help, answer_if_callback, message_of,
    text_strip, log_and_forward_incoming, send_and_log, or_raise, emit,
    update_data, set_state, get_data, clear, raise;
  unfold mbind, M_bind, mret, M_ret; cbn.

(** ** Runs of the rate gate *)

#[export] Instance EventClass_eq_dec : EqDecision EventClass.
Proof. solve_decision. Defined.

(** One event with a sender, as the middleware sees it. *)
Record Call := mkCall { call_cls : EventClass; call_uid : Z; call_now : Q }.

(** The events of a sequence that [__call__] passes to the handler, the
    state being threaded from call to call. *)
Fixpoint passed_calls (self : AntiFloodMiddleware) (calls : list Call) : list Call :=
  match calls with
  | [] => []
  | c :: rest =>
      match AntiFlood_call self (call_cls c) (Some (call_uid c)) (call_now c) with
      | (Passed, self') => c :: passed_calls self' rest
      | (Dropped _, self') => passed_calls self' rest
      end
  end.

(** The limit the middleware holds for a class. *)
Definition limit_of (self : AntiFloodMiddleware) (cls : EventClass) : Q :=
  match cls with IsMessage => limit_msg self | IsCallbackQuery => limit_cb self end.

(** Two events of the same user and class are at least the limit apart. *)
Definition spaced (self : AntiFloodMiddleware) (c1 c2 : Call) : Prop :=
  call_cls c1 = call_cls c2 -> call_uid c1 = call_uid c2 ->
  (limit_of self (call_cls c1) <= call_now c2 - call_now c1)%Q.

(** A burst of events of users 7 and 8. *)
Definition rush : list Call :=
  [ mkCall IsMessage 7 10; mkCall IsMessage 7 (21 # 2);
    mkCall IsCallbackQuery 7 (101 # 10); mkCall IsMessage 8 (21 # 2);
    mkCall IsCallbackQuery 7 (103 # 10); mkCall IsMessage 7 11 ].

(** The event is of this class and this user. *)
Definition same_sender (cls : EventClass) (uid : Z) (c : Call) : bool :=
  bool_decide (call_cls c = cls) && bool_decide (call_uid c = uid).

(** ** Replies, routing tables and the form's data *)

(** What [on_free_text] sends for an item that matched: the photo with the
    answer as its caption when the item has a non-empty image, else the
    answer with the main keyboard. *)
Definition answer_of (item : Item) : Out :=
  match item_image item with
  | Some (String c i) => SendPhoto (String c i) (get_or (item_answer item) "")
  | _ => Send (FaqAnswer (get_or (item_answer item) "")) MainKb
  end.

(** The handler of the form for a state. *)
Definition form_handler (s : Apply.t) : Handler :=
  match s with
  | Apply.name => h_apply_name
  | Apply.age => h_apply_age
  | Apply.contact => h_apply_contact
  | Apply.experience => h_apply_done
  end.

(** The commands whose handlers are registered before the handlers of the
    form. *)
Definition early_command (me : option string) (m : Message) : option Handler :=
  if is_command me "start" m then Some h_on_start
  else if is_command me "help" m then Some h_on_help
  else if is_command me "faq" m then Some h_on_faq
  else if is_command me "apply" m then Some h_start_apply
  else None.

(** The stored name and contact are strings. *)
Definition fields_typed (ctx : FSMContext) : Prop :=
  (forall v, data ctx !! "name" = Some v -> exists s, v = VStr s)
  /\ (forall v, data ctx !! "contact" = Some v -> exists s, v = VStr s).

(** A summary with its four fields, the age an integer of 18 or more. *)
Definition complete_summary (s : Summary) : Prop :=
  exists n a c e,
    s = mkSummary (Some (VStr n)) (Some (VInt a)) (Some (VStr c)) (Some (VStr e))
    /\ 18 <= a.

(** A computation that sends nothing to the manager. *)
Definition no_notify {A} (m : M A) : Prop :=
  forall ctx s, ~ In (Notify s) (res_out (m ctx)).

(** ** Digits, output texts and callback data *)

(** Every character is one of the decimal digits 0..9. *)
Definition all_decimal (s : string) : bool :=
  Text.forall_chars Text.isdecimal_char s.


(** No character is whitespace. *)
Definition no_space (s : string) : bool :=
  Text.forall_chars (fun c => negb (Text.isspace c)) s.

(** Every whitespace character of the text is a plain space. *)
Definition plain_spaces (s : string) : bool :=
  Text.forall_chars (fun c => negb (Text.isspace c) || Ascii.eqb c " ") s.

(** [text.replace("\n", "\\n")]: a line feed becomes a backslash and the
    letter n. *)
Fixpoint escape_newlines (s : string) : string :=
  match s with
  | EmptyString => EmptyString
  | String c s' =>
      if Ascii.eqb c (ascii_of_N 10)
      then String (ascii_of_N 92) (String "n" (escape_newlines s'))
      else String c (escape_newlines s')
  end.

(** [sep.join(parts)] *)
Fixpoint join (sep : string) (parts : list string) : string :=
  match parts with
  | [] => EmptyString
  | [p] => p
  | p :: rest => p ++ sep ++ join sep rest
  end.

(** The two characters a line feed is written as. *)
Definition backslash_n : string := String (ascii_of_N 92) "n".

(** The text [log_message] writes: the escaped text, or the fixed words it
    writes for a missing or empty text. *)
Inductive LogText := NoText | Logged (s : string).

(** [clean_text] of [log_message]. *)
Definition clean_text (text : option string) : LogText :=
  match text with
  | Some (String c s) => Logged (escape_newlines (String c s))
  | _ => NoText
  end.

(** The text has no line feed. *)
Definition one_line (s : string) : bool :=
  Text.forall_chars (fun c => negb (Ascii.eqb c (ascii_of_N 10))) s.

(** The character of a decimal digit. *)
Definition digit_char (d : Z) : ascii := ascii_of_N (Z.to_N (48 + d)).

(** The decimal digits of [n], most significant first, before [acc]. *)
Fixpoint str_digits (fuel : nat) (n : Z) (acc : string) : string :=
  match fuel with
  | O => acc
  | S fuel' =>
      let acc' := String (digit_char (n mod 10)) acc in
      if n <? 10 then acc' else str_digits fuel' (n / 10) acc'
  end.

(** [str(n)] of an integer, as the f-strings of the keyboards format it. *)
Definition str_int (n : Z) : string :=
  if n <? 0 then String "-" (str_digits (S (Z.to_nat (- n))) (- n) "")
  else str_digits (S (Z.to_nat n)) n "".

(** The callback data [f"cat:{idx}"] of [on_faq] and [f"item:{idx}:{i}"] of
    [cb_category]. *)
Definition cat_callback (idx : nat) : string := "cat:" ++ str_int (Z.of_nat idx).

Definition item_callback (idx : Z) (i : nat) : string :=
  "item:" ++ str_int idx ++ ":" ++ str_int (Z.of_nat i).

(** The callback data of the buttons of the two keyboards: one button for
    each position ([enumerate]), and the back button of the item list. *)
Definition category_buttons (titles : list (option string)) : list string :=
  map cat_callback (seq 0 (length titles)).

Definition item_buttons (idx : Z) (labels : list Label) : list string :=
  map (item_callback idx) (seq 0 (length labels)) ++ ["faq"].

(** No character is a colon. *)
Definition no_colon (s : string) : bool :=
  Text.forall_chars (fun c => negb (Ascii.eqb c ":")) s.

(** Proves a fact about a digit character by trying the characters. *)
Ltac digit_cases c H :=
  destruct c as [[] [] [] [] [] [] [] []]; try discriminate H.

(** Proves a fact about one of the ten digits by trying each. *)
Ltac each_digit d H :=
  let E := fresh "E" in
  assert (E : d = 0 \/ d = 1 \/ d = 2 \/ d = 3 \/ d = 4 \/ d = 5 \/ d = 6
              \/ d = 7 \/ d = 8 \/ d = 9) by lia;
  destruct E as [-> | [-> | [-> | [-> | [-> | [-> | [-> | [-> | [-> | ->]]]]]]]]];
  reflexivity.

(** * Properties *)

(** ** Scores *)

Lemma Qltb_lt (x y : Q) : Qltb x y = true <-> (x < y)%Q.
Proof.
  unfold Qltb. rewrite negb_true_iff. split.
  - intros H. apply Qnot_le_lt. intros Hle.
    apply Qle_bool_iff in Hle. congruence.
  - intros H. destruct (Qle_bool y x) eqn:E; [|reflexivity].
    apply Qle_bool_iff in E. exfalso. exact (Qlt_not_le _ _ H E).
Qed.

Lemma Qltb_ge (x y : Q) : Qltb x y = false <-> (y <= x)%Q.
Proof.
  unfold Qltb. rewrite negb_false_iff. apply Qle_bool_iff.
Qed.

(** ** The ratio of difflib *)

Module DifflibFacts.
Import Difflib.
Local Open Scope nat_scope.

Lemma lcp_le_l a b : lcp a b <= length a.
Proof.
  revert b. induction a as [|x a IH]; intros [|y b]; simpl; try lia.
  destruct (Ascii.eqb x y); [specialize (IH b)|]; lia.
Qed.

Lemma lcp_le_r a b : lcp a b <= length b.
Proof.
  revert b. induction a as [|x a IH]; intros [|y b]; simpl; try lia.
  destruct (Ascii.eqb x y); [specialize (IH b)|]; lia.
Qed.

Lemma lcp_take a b : take (lcp a b) a = take (lcp a b) b.
Proof.
  revert b. induction a as [|x a IH]; intros [|y b]; simpl; try reflexivity.
  destruct (Ascii.eqb x y) eqn:E; [|reflexivity].
  apply Ascii.eqb_eq in E. subst y. simpl. f_equal. apply IH.
Qed.

Lemma lcp_same a : lcp a a = length a.
Proof.
  induction a as [|x a IH]; simpl; [reflexivity|].
  rewrite Ascii.eqb_refl. f_equal. exact IH.
Qed.

Lemma drop_cons_inv {A} (l : list A) n x r :
  drop n l = x :: r -> drop (S n) l = r /\ n < length l.
Proof.
  revert n. induction l as [|y l IH]; intros [|n] H; simpl in *; try discriminate.
  - inversion H. split; [reflexivity | lia].
  - destruct (IH _ H). split; [assumption | lia].
Qed.

Lemma scan_b_valid a b a_i i : forall b_j j best,
  a_i = drop i a -> b_j = drop j b -> valid a b best ->
  valid a b (scan_b a_i b_j i j best).
Proof.
  induction b_j as [|y b' IH]; intros j best Ha Hb Hv; simpl; [exact Hv|].
  symmetry in Hb. destruct (drop_cons_inv _ _ _ _ Hb) as [Hb' Hj].
  apply IH; auto.
  destruct (size best <? lcp a_i (y :: b')) eqn:E; [|exact Hv].
  apply Nat.ltb_lt in E.
  pose proof (lcp_le_l a_i (y :: b')) as Hl.
  pose proof (lcp_le_r a_i (y :: b')) as Hr.
  pose proof (lcp_take a_i (y :: b')) as Ht.
  rewrite <- Hb, Ha in *. rewrite !length_drop in *.
  unfold valid. repeat split; try lia. exact Ht.
Qed.

Lemma scan_a_valid a b : forall a_i i best,
  a_i = drop i a -> valid a b best -> valid a b (scan_a a_i b i best).
Proof.
  induction a_i as [|x a' IH]; intros i best Ha Hv; simpl; [exact Hv|].
  symmetry in Ha. destruct (drop_cons_inv _ _ _ _ Ha) as [Ha' Hi].
  apply IH; auto.
  apply scan_b_valid; auto.
Qed.

Lemma find_longest_match_valid a b : valid a b (find_longest_match a b).
Proof.
  apply scan_a_valid; [reflexivity|].
  unfold valid. simpl. repeat split; lia.
Qed.

(** The blocks found never hold more characters than either sequence. *)
Lemma matches_le fuel : forall a b,
  matches fuel a b <= length a /\ matches fuel a b <= length b.
Proof.
  induction fuel as [|fuel IH]; intros a b; simpl; [lia|].
  pose proof (find_longest_match_valid a b) as Hv.
  destruct (find_longest_match a b) as [[i j] k].
  destruct Hv as (Hi & Hj & _).
  destruct k as [|k]; [lia|].
  pose proof (IH (take i a) (take j b)) as [HL1 HL2].
  pose proof (IH (drop (i + S k) a) (drop (j + S k) b)) as [HR1 HR2].
  rewrite !length_take, !length_drop in *.
  destruct ((0 <? i) && (0 <? j));
    destruct ((i + S k <? length a) && (j + S k <? length b)); lia.
Qed.

Lemma scan_b_keep a_i i : forall b_j j best,
  length a_i <= size best -> scan_b a_i b_j i j best = best.
Proof.
  induction b_j as [|y b' IH]; intros j best H; simpl; [reflexivity|].
  pose proof (lcp_le_l a_i (y :: b')) as Hl.
  destruct (size best <? lcp a_i (y :: b')) eqn:E.
  - apply Nat.ltb_lt in E. lia.
  - apply IH. exact H.
Qed.

Lemma scan_a_keep b : forall a_i i best,
  length a_i <= size best -> scan_a a_i b i best = best.
Proof.
  induction a_i as [|x a' IH]; intros i best H; simpl; [reflexivity|].
  rewrite scan_b_keep by exact H. apply IH. simpl in H. lia.
Qed.

(** Matching a sequence against itself finds the whole of it at once. *)
Lemma find_longest_match_same a :
  find_longest_match a a = (0, 0, length a).
Proof.
  unfold find_longest_match. destruct a as [|x a]; [reflexivity|].
  cbn [scan_a scan_b]. rewrite lcp_same.
  cbn [size snd length]. replace (0 <? S (length a)) with true by reflexivity.
  rewrite scan_b_keep by (simpl; lia).
  apply scan_a_keep. simpl. lia.
Qed.

Lemma matches_same fuel a : matches (S fuel) a a = length a.
Proof.
  cbn [matches]. rewrite find_longest_match_same.
  destruct a as [|x a]; [reflexivity|].
  assert (E : (0 + length (x :: a) <? length (x :: a)) = false)
    by (apply Nat.ltb_ge; lia).
  rewrite E. cbn. lia.
Qed.

(** Blocks that cover a whole sequence of the same length make the two
    sequences equal. *)
Lemma matches_full fuel : forall a b,
  matches fuel a b = length a -> length a = length b -> a = b.
Proof.
  induction fuel as [|fuel IH]; intros a b HM Hlen.
  - simpl in HM. destruct a; [|discriminate].
    destruct b; [reflexivity|discriminate].
  - cbn [matches] in HM.
    pose proof (find_longest_match_valid a b) as Hv.
    destruct (find_longest_match a b) as [[i j] k].
    destruct Hv as (Hi & Hj & Hmid).
    destruct k as [|k].
    { destruct a; [|discriminate]. destruct b; [reflexivity|discriminate]. }
    pose proof (matches_le fuel (take i a) (take j b)) as [HL1 HL2].
    pose proof (matches_le fuel (drop (i + S k) a) (drop (j + S k) b)) as [HR1 HR2].
    rewrite !length_take, !length_drop in *.
    assert (Hij : i = j).
    { destruct ((0 <? i) && (0 <? j));
        destruct ((i + S k <? length a) && (j + S k <? length b)); lia. }
    subst j.
    assert (Hleft : take i a = take i b).
    { destruct ((0 <? i) && (0 <? i)) eqn:E.
      - apply IH; rewrite ?length_take; [|lia].
        destruct ((i + S k <? length a) && (i + S k <? length b)); lia.
      - assert (i = 0) by (destruct i; [reflexivity | discriminate]).
        subst i. reflexivity. }
    assert (Hright : drop (i + S k) a = drop (i + S k) b).
    { destruct ((i + S k <? length a) && (i + S k <? length b)) eqn:E.
      - apply IH; rewrite ?length_drop; [|lia].
        destruct ((0 <? i) && (0 <? i)); lia.
      - assert (length a <= i + S k).
        { apply andb_false_iff in E.
          destruct E as [E|E]; apply Nat.ltb_ge in E; lia. }
        rewrite !drop_ge by lia. reflexivity. }
    rewrite <- (take_drop i a), <- (take_drop i b).
    rewrite <- (take_drop (S k) (drop i a)), <- (take_drop (S k) (drop i b)).
    rewrite !drop_drop. congruence.
Qed.

Lemma matches_S fuel a b :
  matches (S fuel) a b =
  let '(i, j, k) := find_longest_match a b in
  match k with
  | O => 0
  | _ =>
      (if (0 <? i) && (0 <? j)
       then matches fuel (take i a) (take j b) else 0)
      + k
      + (if (i + k <? length a) && (j + k <? length b)
         then matches fuel (drop (i + k) a) (drop (j + k) b) else 0)
  end.
Proof. reflexivity. Qed.

(** The fuel of [ratio] is enough: more fuel finds the same blocks. *)
Lemma matches_fuel fuel : forall a b,
  length a < fuel -> matches fuel a b = matches (S fuel) a b.
Proof.
  induction fuel as [|fuel IH]; intros a b Hlen; [lia|].
  rewrite (matches_S (S fuel) a b), (matches_S fuel a b).
  pose proof (find_longest_match_valid a b) as Hv.
  destruct (find_longest_match a b) as [[i j] k].
  destruct Hv as (Hi & Hj & _).
  destruct k as [|k]; [reflexivity|].
  rewrite <- (IH (take i a) (take j b)) by (rewrite length_take; lia).
  rewrite <- (IH (drop (i + S k) a) (drop (j + S k) b))
    by (rewrite length_drop; lia).
  reflexivity.
Qed.
Local Open Scope Q_scope.

Lemma ratio_at_most_1 a b : Difflib.ratio a b <= 1.
Proof.
  unfold Difflib.ratio, calculate_ratio.
  set (la := list_ascii_of_string a). set (lb := list_ascii_of_string b).
  pose proof (matches_le (S (length la)) la lb) as [H1 H2].
  destruct (length la + length lb)%nat as [|n] eqn:E; [apply Qle_refl|].
  unfold Qle. cbn [Qnum Qden]. rewrite Zpos_P_of_succ_nat. lia.
Qed.

Lemma ratio_of_same a : Difflib.ratio a a == 1.
Proof.
  unfold Difflib.ratio, calculate_ratio.
  set (la := list_ascii_of_string a).
  rewrite matches_same.
  destruct (length la + length la)%nat as [|n] eqn:E; [reflexivity|].
  unfold Qeq. cbn [Qnum Qden]. rewrite Zpos_P_of_succ_nat. lia.
Qed.

Lemma ratio_1_only_same a b : Difflib.ratio a b == 1 -> a = b.
Proof.
  unfold Difflib.ratio, calculate_ratio.
  set (la := list_ascii_of_string a). set (lb := list_ascii_of_string b).
  intros H.
  assert (Hl : la = lb).
  { pose proof (matches_le (S (length la)) la lb) as [H1 H2].
    destruct (length la + length lb)%nat as [|n] eqn:E.
    - destruct la; [|discriminate]. destruct lb; [reflexivity|discriminate].
    - unfold Qeq in H. cbn [Qnum Qden] in H. rewrite Zpos_P_of_succ_nat in H.
      apply (matches_full (S (length la))); lia. }
  rewrite <- (string_of_list_ascii_of_string a), <- (string_of_list_ascii_of_string b).
  fold la lb. congruence.
Qed.

End DifflibFacts.

(** ** Normalization *)

Module NormalizeFacts.
Import Text.

Lemma lower_char_space c : isspace (lower_char c) = isspace c.
Proof. each_char c. Qed.

Lemma lower_char_idem c : lower_char (lower_char c) = lower_char c.
Proof. each_char c. Qed.

Lemma lower_char_punct c : ispunct (lower_char c) = ispunct c.
Proof. each_char c. Qed.

#[local] Arguments ispunct : simpl never.
#[local] Arguments isspace : simpl never.
#[local] Arguments lower_char : simpl never.

Lemma lower_idem s : lower (lower s) = lower s.
Proof.
  induction s as [|c s IH]; [reflexivity|].
  cbn [lower]. rewrite lower_char_idem, IH. reflexivity.
Qed.

Lemma lower_lstrip s : lower (lstrip s) = lstrip (lower s).
Proof.
  induction s as [|c s IH]; [reflexivity|].
  cbn [lower lstrip]. rewrite lower_char_space.
  destruct (isspace c); [exact IH | reflexivity].
Qed.

Lemma lower_empty s : lower s = "" -> s = "".
Proof. destruct s; [reflexivity | discriminate]. Qed.

Lemma lower_rstrip s : lower (rstrip s) = rstrip (lower s).
Proof.
  induction s as [|c s IH]; [reflexivity|].
  cbn [lower rstrip]. rewrite <- IH, lower_char_space.
  destruct (rstrip s) as [|d r]; cbn [lower].
  - destruct (isspace c); reflexivity.
  - reflexivity.
Qed.

Lemma lower_collapse b s : lower (collapse_from b s) = collapse_from b (lower s).
Proof.
  revert b. induction s as [|c s IH]; intros b; [reflexivity|].
  cbn [lower collapse_from]. rewrite lower_char_space.
  destruct (isspace c); [destruct b|]; cbn [lower]; rewrite IH; reflexivity.
Qed.

Lemma remove_punct_id s : no_punct s = true -> remove_punct s = s.
Proof.
  induction s as [|c s IH]; [reflexivity|].
  cbn. intros H. apply andb_true_iff in H as [Hc Hs].
  apply negb_true_iff in Hc. rewrite Hc, (IH Hs). reflexivity.
Qed.

Lemma remove_punct_clean s : no_punct (remove_punct s) = true.
Proof.
  induction s as [|c s IH]; [reflexivity|].
  cbn [remove_punct]. destruct (ispunct c) eqn:E; [exact IH|].
  cbn. rewrite E. exact IH.
Qed.

Lemma no_punct_lower s : no_punct (lower s) = no_punct s.
Proof.
  induction s as [|c s IH]; [reflexivity|].
  cbn. rewrite lower_char_punct. f_equal. exact IH.
Qed.

Lemma no_punct_lstrip s : no_punct s = true -> no_punct (lstrip s) = true.
Proof.
  induction s as [|c s IH]; [reflexivity|].
  intros H. cbn [lstrip]. destruct (isspace c); [|exact H].
  apply IH. cbn in H. apply andb_true_iff in H as [_ H]. exact H.
Qed.

Lemma no_punct_rstrip s : no_punct s = true -> no_punct (rstrip s) = true.
Proof.
  induction s as [|c s IH]; [reflexivity|].
  intros H. cbn in H. apply andb_true_iff in H as [Hc Hs].
  specialize (IH Hs). cbn [rstrip].
  destruct (rstrip s) as [|d r].
  - destruct (isspace c); [reflexivity|]. cbn. rewrite Hc. reflexivity.
  - cbn in *. rewrite Hc. exact IH.
Qed.

Lemma no_punct_collapse b s :
  no_punct s = true -> no_punct (collapse_from b s) = true.
Proof.
  revert b. induction s as [|c s IH]; intros b; [reflexivity|].
  intros H. cbn in H. apply andb_true_iff in H as [Hc Hs].
  cbn [collapse_from].
  destruct (isspace c); [destruct b|]; cbn; rewrite ?Hc; apply IH; exact Hs.
Qed.

Lemma collapse_single_spaced b s : single_spaced b (collapse_from b s) = true.
Proof.
  revert b. induction s as [|c s IH]; intros b; [reflexivity|].
  cbn [collapse_from]. destruct (isspace c) eqn:E.
  - destruct b; [apply IH|]. cbn. apply IH.
  - cbn. rewrite E. apply IH.
Qed.

Lemma single_spaced_collapse b s :
  single_spaced b s = true -> collapse_from b s = s.
Proof.
  revert b. induction s as [|c s IH]; intros b; [reflexivity|].
  cbn. destruct (isspace c).
  - intros H. apply andb_true_iff in H as [H Hs].
    apply andb_true_iff in H as [Hc Hb].
    apply Ascii.eqb_eq in Hc. apply negb_true_iff in Hb. subst.
    rewrite (IH _ Hs). reflexivity.
  - intros H. rewrite (IH _ H). reflexivity.
Qed.

Lemma collapse_idem s : collapse_spaces (collapse_spaces s) = collapse_spaces s.
Proof.
  unfold collapse_spaces. apply single_spaced_collapse, collapse_single_spaced.
Qed.

Lemma lstrip_head t :
  lstrip t = "" \/ exists c r, lstrip t = String c r /\ isspace c = false.
Proof.
  induction t as [|c t IH]; [left; reflexivity|].
  cbn [lstrip]. destruct (isspace c) eqn:E; [exact IH|].
  right. exists c, t. auto.
Qed.

Lemma rstrip_head c r :
  isspace c = false -> exists r', rstrip (String c r) = String c r'.
Proof.
  intros H. cbn [rstrip]. destruct (rstrip r); rewrite ?H; eauto.
Qed.

Lemma strip_head t :
  strip t = "" \/ exists c r, strip t = String c r /\ isspace c = false.
Proof.
  unfold strip. destruct (lstrip_head t) as [E | (c & r & E & Hc)]; rewrite E.
  - left. reflexivity.
  - right. destruct (rstrip_head c r Hc) as [r' Hr]. eauto.
Qed.

Lemma lstrip_collapse_strip t :
  lstrip (collapse_spaces (strip t)) = collapse_spaces (strip t).
Proof.
  destruct (strip_head t) as [E | (c & r & E & Hc)]; rewrite E; [reflexivity|].
  unfold collapse_spaces. cbn. rewrite Hc. cbn. rewrite Hc. reflexivity.
Qed.

Lemma collapse_cons b c s :
  collapse_from b (String c s)
  = if isspace c
    then (if b then collapse_from true s else String " " (collapse_from true s))
    else String c (collapse_from false s).
Proof. reflexivity. Qed.

Lemma collapse_rstrip_nonempty z : forall b,
  rstrip z <> "" -> collapse_from b (rstrip z) <> "".
Proof.
  induction z as [|c z IH]; intros b; [intros H; exact H|].
  cbn [rstrip]. destruct (rstrip z) as [|d r] eqn:E.
  - destruct (isspace c) eqn:Ec; [intros H; exact H|].
    intros _. cbn. rewrite Ec. discriminate.
  - intros _. rewrite collapse_cons.
    destruct (isspace c); [destruct b|]; try discriminate.
    apply IH. discriminate.
Qed.

Lemma rstrip_cons_nonempty x r :
  r <> "" -> rstrip r = r -> rstrip (String x r) = String x r.
Proof.
  intros Hne Hr. cbn [rstrip]. rewrite Hr.
  destruct r; [contradiction | reflexivity].
Qed.

Lemma rstrip_collapse_rstrip z : forall b,
  rstrip (collapse_from b (rstrip z)) = collapse_from b (rstrip z).
Proof.
  induction z as [|c z IH]; intros b; [reflexivity|].
  cbn [rstrip].
  pose proof (collapse_rstrip_nonempty z) as Hne.
  destruct (rstrip z) as [|d r] eqn:E.
  - destruct (isspace c) eqn:Ec; [reflexivity|].
    cbn. rewrite Ec. cbn. rewrite Ec. reflexivity.
  - assert (Hn : forall b', collapse_from b' (String d r) <> "")
      by (intros b'; apply Hne; discriminate).
    rewrite collapse_cons.
    destruct (isspace c); [destruct b|].
    + apply IH.
    + apply rstrip_cons_nonempty; [apply Hn | apply IH].
    + apply rstrip_cons_nonempty; [apply Hn | apply IH].
Qed.

Lemma strip_collapse_strip t :
  strip (collapse_spaces (strip t)) = collapse_spaces (strip t).
Proof.
  unfold strip at 1. rewrite lstrip_collapse_strip.
  unfold strip, collapse_spaces. apply rstrip_collapse_rstrip.
Qed.

Lemma lower_remove_punct s : lower (remove_punct s) = remove_punct (lower s).
Proof.
  induction s as [|c s IH]; [reflexivity|].
  cbn [lower remove_punct]. rewrite lower_char_punct.
  destruct (ispunct c); cbn [lower]; rewrite IH; reflexivity.
Qed.

(** The result of [normalize] is in lower case and without punctuation. *)
Lemma normalize_lower u : lower (normalize u) = normalize u.
Proof.
  unfold normalize, collapse_spaces, strip.
  rewrite lower_remove_punct, lower_collapse, lower_rstrip, lower_lstrip, lower_idem.
  reflexivity.
Qed.

Lemma normalize_no_punct u : no_punct (normalize u) = true.
Proof. unfold normalize. apply remove_punct_clean. Qed.

(** On a text in lower case and without punctuation only the stripping and
    the collapsing of [normalize] are left. *)
Lemma normalize_of_normal v :
  no_punct v = true -> lower v = v -> normalize v = collapse_spaces (strip v).
Proof.
  intros Hv Hl. unfold normalize. rewrite Hl. apply remove_punct_id.
  unfold collapse_spaces, strip.
  apply no_punct_collapse, no_punct_rstrip, no_punct_lstrip, Hv.
Qed.

Lemma normalize_fixed_iff v :
  no_punct v = true -> lower v = v ->
  normalize v = v <-> strip v = v /\ collapse_spaces v = v.
Proof.
  intros Hv Hl. rewrite (normalize_of_normal v Hv Hl). split.
  - intros H. split.
    + rewrite <- H at 1. rewrite strip_collapse_strip. exact H.
    + rewrite <- H at 1. rewrite collapse_idem. exact H.
  - intros [Hs Hc]. rewrite Hs. exact Hc.
Qed.

(** On a text without punctuation [normalize] is idempotent. *)
Lemma normalize_idempotent_without_punct u :
  no_punct u = true -> normalize (normalize u) = normalize u.
Proof.
  intros Hu.
  apply normalize_fixed_iff;
    [apply normalize_no_punct | apply normalize_lower |].
  assert (Hn : normalize u = collapse_spaces (strip (lower u))).
  { unfold normalize. apply remove_punct_id.
    unfold collapse_spaces, strip.
    apply no_punct_collapse, no_punct_rstrip, no_punct_lstrip.
    rewrite no_punct_lower. exact Hu. }
  rewrite Hn. split; [apply strip_collapse_strip | apply collapse_idem].
Qed.

End NormalizeFacts.

(** C7, as amended. [normalize(u) == normalize(normalize(u))] holds exactly
    for the utterances whose normalized form has no leading, trailing or
    repeated whitespace; it holds for every utterance without the
    punctuation characters, and for every utterance the second application
    gives a text that a third leaves alone. *)
Theorem normalize_idempotent_iff (u : string) :
  (normalize (normalize u) = normalize u <->
   Text.strip (normalize u) = normalize u
   /\ Text.collapse_spaces (normalize u) = normalize u)
  /\ (Text.no_punct u = true -> normalize (normalize u) = normalize u)
  /\ normalize (normalize (normalize u)) = normalize (normalize u).
Proof.
  split; [|split].
  - apply NormalizeFacts.normalize_fixed_iff.
    + apply NormalizeFacts.normalize_no_punct.
    + apply NormalizeFacts.normalize_lower.
  - apply NormalizeFacts.normalize_idempotent_without_punct.
  - apply NormalizeFacts.normalize_idempotent_without_punct.
    apply NormalizeFacts.normalize_no_punct.
Qed.

(** C7, as stated, fails: the whitespace is stripped and collapsed before
    the punctuation is removed, so a space next to a removed character
    survives the first pass and falls to the second. *)
Lemma normalize_twice_differs :
  normalize "a ." = "a "
  /\ normalize (normalize "a .") = "a"
  /\ normalize (normalize "a .") <> normalize "a ."
  /\ normalize "Hi , there" = "hi  there"
  /\ normalize (normalize "Hi , there") = "hi there".
Proof. repeat split; try reflexivity. discriminate. Qed.

(** ** The scan of [best_faq_answer] *)

Section KnowledgeIndexFacts.

Variable ratio : string -> string -> Q.
Variable CATEGORIES : list Category.

Lemma scan_item_scores q item best :
  scan_item ratio q best item = fold_left better (item_scores ratio q item) best.
Proof.
  unfold scan_item, item_scores.
  generalize (get_or (item_patterns item) []) best.
  induction l as [|p l IH]; intros b; [reflexivity|].
  simpl. rewrite IH. reflexivity.
Qed.

Lemma scan_category_scores q cat best :
  scan_category ratio q best cat
  = fold_left better (category_scores ratio q cat) best.
Proof.
  unfold scan_category, category_scores.
  generalize (get_or (cat_items cat) []) best.
  induction l as [|it l IH]; intros b; [reflexivity|].
  simpl. rewrite fold_left_app, IH, scan_item_scores. reflexivity.
Qed.

Lemma scan_scores q cats best :
  fold_left (scan_category ratio q) cats best
  = fold_left better (scores ratio q cats) best.
Proof.
  revert best. induction cats as [|c cats IH]; intros b; [reflexivity|].
  simpl. rewrite fold_left_app, IH, scan_category_scores. reflexivity.
Qed.

(** What a scan that starts from [best] ends with: [best] itself when no
    pair beats its score, else the first pair of the highest score. *)
Lemma fold_better l : forall best,
  (fold_left better l best = best /\ Forall (fun p => (snd p <= snd best)%Q) l)
  \/ (exists pre item post,
        let s := snd (fold_left better l best) in
        l = (pre ++ (item, s) :: post)%list
        /\ fold_left better l best = (Some item, s)
        /\ (snd best < s)%Q
        /\ Forall (fun p => (snd p < s)%Q) pre
        /\ Forall (fun p => (snd p <= s)%Q) post).
Proof.
  induction l as [|[it sc] l IH]; intros best.
  - left. split; [reflexivity | constructor].
  - cbn [fold_left].
    destruct (Qltb (snd best) sc) eqn:E.
    + assert (Hb : better best (it, sc) = (Some it, sc))
        by (unfold better; cbn [fst snd]; rewrite E; reflexivity).
      rewrite Hb. apply Qltb_lt in E.
      destruct (IH (Some it, sc))
        as [[Heq Hall] | (pre & item & post & Hl & Hf & Hlt & Hpre & Hpost)].
      * right. exists [], it, l. rewrite Heq. cbn in *.
        repeat split; auto.
      * right. exists ((it, sc) :: pre), item, post.
        cbn zeta in *. rewrite Hf in *. cbn [fst snd] in *.
        repeat split; auto.
        -- cbn. congruence.
        -- eapply Qlt_trans; eauto.
    + assert (Hb : better best (it, sc) = best)
        by (unfold better; cbn [fst snd]; rewrite E; reflexivity).
      rewrite Hb. apply Qltb_ge in E.
      destruct (IH best)
        as [[Heq Hall] | (pre & item & post & Hl & Hf & Hlt & Hpre & Hpost)].
      * left. split; [exact Heq | constructor; auto].
      * right. exists ((it, sc) :: pre), item, post.
        cbn zeta in *. rewrite Hf in *. cbn [fst snd] in *.
        repeat split; auto.
        -- cbn. congruence.
        -- constructor; auto. cbn. eapply Qle_lt_trans; eauto.
Qed.

Lemma in_scores q item s :
  In (item, s) (scores ratio q CATEGORIES) <->
  exists p, owns CATEGORIES item p /\ s = ratio q (normalize p).
Proof.
  unfold scores, category_scores, item_scores, owns. split.
  - intros H. apply in_flat_map in H as (cat & Hc & H).
    apply in_flat_map in H as (it & Hi & H).
    apply in_map_iff in H as (p & Hp & Hin).
    inversion Hp; subst. eauto 10.
  - intros (p & (cat & Hc & Hi & Hp) & ->).
    apply in_flat_map. exists cat. split; [exact Hc|].
    apply in_flat_map. exists item. split; [exact Hi|].
    apply in_map_iff. exists p. split; [reflexivity | exact Hp].
Qed.

(** The result of [best_faq_answer] in terms of the scan, for any
    threshold. *)
Lemma best_faq_answer_cases (user_text : string) (threshold : Q) :
  let scan := scores ratio (normalize user_text) CATEGORIES in
  let result := best_faq_answer ratio CATEGORIES user_text threshold in
  Forall (fun p => (snd p <= snd result)%Q) scan
  /\ ((result = (None, 0%Q) /\ Forall (fun p => (snd p <= 0)%Q) scan)
      \/ exists pre item post,
           scan = (pre ++ (item, snd result) :: post)%list
           /\ Forall (fun p => (snd p < snd result)%Q) pre
           /\ Forall (fun p => (snd p <= snd result)%Q) post
           /\ (0 < snd result)%Q
           /\ fst result =
               if Qle_bool threshold (snd result) then Some item else None).
Proof.
  cbv zeta. unfold best_faq_answer. rewrite scan_scores.
  destruct (fold_better (scores ratio (normalize user_text) CATEGORIES) (None, 0%Q))
    as [[Heq Hall] | (pre & item & post & Hl & Hf & Hlt & Hpre & Hpost)].
  - rewrite Heq. cbn [fst snd].
    destruct (Qle_bool threshold 0); cbn [fst snd];
      (split; [exact Hall|]; left; split; [reflexivity | exact Hall]).
  - cbv zeta in *. rewrite Hf in *. cbn [fst snd] in *.
    set (s := snd (fold_left better (scores ratio (normalize user_text) CATEGORIES)
                     (None, 0%Q))) in *.
    assert (Hsnd : forall b : bool, snd (if b then (Some item, s) else (None, s)) = s)
      by (intros []; reflexivity).
    rewrite !Hsnd. split.
    + rewrite Hl. apply Forall_app. split.
      * eapply Forall_impl; [exact Hpre|]. intros p Hp. apply Qlt_le_weak, Hp.
      * constructor; [apply Qle_refl | exact Hpost].
    + right. exists pre, item, post.
      repeat split; auto. destruct (Qle_bool threshold s); reflexivity.
Qed.

(** C1. For every utterance, [resolve] ([best_faq_answer] with the
    threshold 0.63) scans every pattern of every item of every category in
    order. The score it returns bounds every score of the scan. Either no
    pattern scored above the initial 0.0, and it returns no item with the
    score 0.0; or the returned score is the score of a pair of the scan
    before which every pair scored strictly less (the first pair of the
    highest score), and the item of that pair is returned when the score is
    at least 0.63 and no item otherwise, with the score either way. *)
Theorem resolve_tracks_first_best (utterance : string) :
  let scan := scores ratio (normalize utterance) CATEGORIES in
  let result := resolve ratio CATEGORIES utterance in
  Forall (fun p => (snd p <= snd result)%Q) scan
  /\ ((result = (None, 0%Q) /\ Forall (fun p => (snd p <= 0)%Q) scan)
      \/ exists pre item post,
           scan = (pre ++ (item, snd result) :: post)%list
           /\ Forall (fun p => (snd p < snd result)%Q) pre
           /\ Forall (fun p => (snd p <= snd result)%Q) post
           /\ (0 < snd result)%Q
           /\ fst result =
               if Qle_bool (63 # 100) (snd result) then Some item else None).
Proof. exact (best_faq_answer_cases utterance (63 # 100)). Qed.

(** What difflib's ratio guarantees: it never exceeds 1.0, it is 1.0 on
    two equal strings, and only there. *)
Hypothesis ratio_le_1 : forall a b, (ratio a b <= 1)%Q.
Hypothesis ratio_same : forall a, (ratio a a == 1)%Q.
Hypothesis ratio_1_same : forall a b, (ratio a b == 1)%Q -> a = b.

(** C8, as amended. For every utterance that, after normalization, is
    identical to a stored pattern (normalized the same way), [resolve]
    returns an item (a non-empty dict, which [on_free_text] takes as a
    match), the score is 1.0, and the returned item owns a pattern identical
    to the utterance after normalization. It is the first such item of the
    scan: every pattern scanned before it scores less. So it is the item
    owning the given pattern whenever no other item owns a pattern that is
    identical to the utterance after normalization, and need not be
    otherwise. *)
Theorem resolve_exact_pattern (utterance : string) (item : Item) (pattern : string) :
  owns CATEGORIES item pattern ->
  normalize pattern = normalize utterance ->
  exists item' score pattern',
    resolve ratio CATEGORIES utterance = (Some item', score)
    /\ item_truthy item' = true
    /\ (score == 1)%Q
    /\ owns CATEGORIES item' pattern'
    /\ normalize pattern' = normalize utterance
    /\ ((forall other p, owns CATEGORIES other p ->
                        normalize p = normalize utterance -> other = item)
        -> item' = item)
    /\ exists pre post,
         scores ratio (normalize utterance) CATEGORIES
         = (pre ++ (item', score) :: post)%list
         /\ Forall (fun p => (snd p < score)%Q) pre.
Proof.
  intros Hown Hnorm.
  pose proof (best_faq_answer_cases utterance (63 # 100)) as [Hbound Hcases].
  fold (resolve ratio CATEGORIES utterance) in Hbound, Hcases.
  cbv zeta in *.
  set (q := normalize utterance) in *.
  set (result := resolve ratio CATEGORIES utterance) in *.
  assert (Hin : In (item, ratio q q) (scores ratio q CATEGORIES)).
  { apply in_scores. exists pattern. split; [exact Hown | congruence]. }
  destruct Hcases as [[_ Hall] | (pre & item' & post & Hl & Hpre & _ & _ & Hfst)].
  - exfalso. rewrite List.Forall_forall in Hall.
    specialize (Hall _ Hin). cbn in Hall.
    rewrite ratio_same in Hall. revert Hall. apply Qlt_not_le. reflexivity.
  - assert (Hin' : In (item', snd result) (scores ratio q CATEGORIES)).
    { rewrite Hl. apply in_or_app. right. left. reflexivity. }
    apply in_scores in Hin' as (p' & Hown' & Hs).
    assert (Hone : (snd result == 1)%Q).
    { apply Qle_antisym.
      - rewrite Hs. apply ratio_le_1.
      - rewrite List.Forall_forall in Hbound. specialize (Hbound _ Hin).
        cbn in Hbound. rewrite ratio_same in Hbound. exact Hbound. }
    assert (Hq : normalize p' = q).
    { symmetry. apply ratio_1_same. rewrite <- Hs. exact Hone. }
    assert (Hok : Qle_bool (63 # 100) (snd result) = true).
    { apply Qle_bool_iff. rewrite Hone. discriminate. }
    rewrite Hok in Hfst.
    exists item', (snd result), p'.
    split; [destruct result as [r s]; cbn in *; congruence|].
    split.
    { destruct Hown' as (cat & _ & _ & Hp). unfold item_truthy.
      destruct (item_patterns item'); [reflexivity | destruct Hp]. }
    split; [exact Hone|]. split; [exact Hown'|]. split; [exact Hq|].
    split; [intros Huniq; eapply Huniq; eauto|].
    exists pre, post. split; [exact Hl | exact Hpre].
Qed.

End KnowledgeIndexFacts.

Lemma owns_demo : owns kb_demo item_demo "start streaming".
Proof. exists (mkCategory (Some "General") (Some [item_demo])). cbn. auto. Qed.

Lemma resolve_exact_pattern_witness :
  owns kb_demo item_demo "start streaming"
  /\ normalize "start streaming" = normalize "  START   streaming!"
  /\ exists item' score pattern',
       resolve Difflib.ratio kb_demo "  START   streaming!" = (Some item', score)
       /\ item_truthy item' = true
       /\ (score == 1)%Q
       /\ owns kb_demo item' pattern'
       /\ normalize pattern' = normalize "  START   streaming!"
       /\ ((forall other p, owns kb_demo other p ->
              normalize p = normalize "  START   streaming!" -> other = item_demo)
           -> item' = item_demo)
       /\ exists pre post,
            scores Difflib.ratio (normalize "  START   streaming!") kb_demo
            = (pre ++ (item', score) :: post)%list
            /\ Forall (fun p => (snd p < score)%Q) pre.
Proof.
  split; [exact owns_demo|]. split; [reflexivity|].
  apply (resolve_exact_pattern Difflib.ratio kb_demo
           DifflibFacts.ratio_at_most_1 DifflibFacts.ratio_of_same
           DifflibFacts.ratio_1_only_same
           "  START   streaming!" item_demo "start streaming").
  - exact owns_demo.
  - reflexivity.
Defined.

(** C8, as stated, fails. The utterance "Hi!" is identical to a stored
    pattern, which the second of two items owns and the first does not; the
    first item owns a pattern that is the same after normalization, and it
    is the one returned, with the score 1.0. *)
Lemma resolve_returns_first_twin :
  owns kb_twins twin_b "Hi!"
  /\ ~ owns kb_twins twin_a "Hi!"
  /\ twin_a <> twin_b
  /\ fst (resolve Difflib.ratio kb_twins "Hi!") = Some twin_a
  /\ (snd (resolve Difflib.ratio kb_twins "Hi!") == 1)%Q
  /\ ~ (forall utterance item pattern,
          owns kb_twins item pattern ->
          normalize pattern = normalize utterance ->
          fst (resolve Difflib.ratio kb_twins utterance) = Some item).
Proof.
  assert (Hb : owns kb_twins twin_b "Hi!").
  { exists (mkCategory None (Some [twin_a; twin_b])). cbn. auto. }
  assert (Hne : twin_a <> twin_b) by discriminate.
  assert (Hres : fst (resolve Difflib.ratio kb_twins "Hi!") = Some twin_a)
    by reflexivity.
  split; [exact Hb|]. split.
  { intros (cat & _ & _ & Hp). cbn in Hp. destruct Hp as [Hp | []].
    discriminate Hp. }
  split; [exact Hne|]. split; [exact Hres|]. split; [reflexivity|].
  intros H. specialize (H "Hi!" twin_b "Hi!" Hb eq_refl).
  rewrite Hres in H. discriminate H.
Qed.

(** ** Digits *)

Module DigitFacts.
Import Text.

Lemma digit_not_space c : isdigit_char c = true -> isspace c = false.
Proof. intros H. digit_cases c H; reflexivity. Qed.

Lemma digit_not_underscore c :
  isdigit_char c = true -> isdecimal_char c = false -> Ascii.eqb c "_" = false.
Proof. intros H _. digit_cases c H; reflexivity. Qed.

Lemma decimal_is_digit c : isdecimal_char c = true -> isdigit_char c = true.
Proof. intros H. unfold isdigit_char. rewrite H. reflexivity. Qed.

Lemma decimal_value_bounds c :
  isdecimal_char c = true -> 0 <= digit_value c <= 9.
Proof.
  unfold isdecimal_char, digit_value. intros H.
  apply andb_true_iff in H as [H1 H2].
  apply N.leb_le in H1. apply N.leb_le in H2. lia.
Qed.

Lemma no_space_lstrip s : no_space s = true -> lstrip s = s.
Proof.
  destruct s as [|c s]; [reflexivity|]. unfold no_space. cbn [forall_chars lstrip].
  intros H. apply andb_true_iff in H as [H _]. apply negb_true_iff in H.
  rewrite H. reflexivity.
Qed.

Lemma no_space_rstrip s : no_space s = true -> rstrip s = s.
Proof.
  induction s as [|c s IH]; [reflexivity|]. intros H.
  unfold no_space in H. cbn [forall_chars] in H.
  apply andb_true_iff in H as [Hc Hs]. apply negb_true_iff in Hc.
  cbn [rstrip]. rewrite (IH Hs). destruct s; [rewrite Hc|]; reflexivity.
Qed.

Lemma no_space_strip s : no_space s = true -> strip s = s.
Proof.
  intros H. unfold strip. rewrite (no_space_lstrip s H). apply no_space_rstrip, H.
Qed.

Lemma digits_no_space s : forall_chars isdigit_char s = true -> no_space s = true.
Proof.
  unfold no_space. induction s as [|c s IH]; [reflexivity|].
  cbn [forall_chars]. intros H. apply andb_true_iff in H as [Hc Hs].
  rewrite (digit_not_space c Hc), (IH Hs). reflexivity.
Qed.

Lemma isdigit_chars s :
  isdigit s = true -> forall_chars isdigit_char s = true /\ s <> "".
Proof. destruct s; [discriminate|]. intros H. split; [exact H | discriminate]. Qed.

(** A text of digits is read without sign and without stripping. *)
Lemma int_of_digits s :
  isdigit s = true -> int s = int_digits false 0 s.
Proof.
  intros H. destruct (isdigit_chars s H) as [Hall _].
  unfold int. rewrite (no_space_strip s (digits_no_space s Hall)).
  destruct s as [|c s]; [reflexivity|].
  cbn in Hall. apply andb_true_iff in Hall as [Hc _].
  digit_cases c Hc; reflexivity.
Qed.

Lemma int_digits_decimal s : forall b acc,
  all_decimal s = true -> s <> "" -> 0 <= acc ->
  exists v, int_digits b acc s = Some v /\ 0 <= v.
Proof.
  induction s as [|c s IH]; intros b acc Hall Hne Hacc; [contradiction|].
  unfold all_decimal in Hall. cbn [forall_chars] in Hall.
  apply andb_true_iff in Hall as [Hc Hs].
  cbn [int_digits]. rewrite Hc.
  pose proof (decimal_value_bounds c Hc).
  destruct s as [|d s].
  - cbn. eexists. split; [reflexivity | lia].
  - apply IH; [exact Hs | discriminate | lia].
Qed.

Lemma int_digits_superscript s : forall b acc,
  forall_chars isdigit_char s = true -> all_decimal s = false ->
  int_digits b acc s = None.
Proof.
  induction s as [|c s IH]; intros b acc Hdig Hdec; [discriminate Hdec|].
  cbn [forall_chars] in Hdig. apply andb_true_iff in Hdig as [Hc Hs].
  unfold all_decimal in Hdec. cbn [forall_chars] in Hdec.
  cbn [int_digits].
  destruct (isdecimal_char c) eqn:E.
  - apply IH; [exact Hs | exact Hdec].
  - rewrite (digit_not_underscore c Hc E). reflexivity.
Qed.

End DigitFacts.

(** ** The application form *)

(** C2. For every input to [apply_age], the handler of the state
    [Apply.age], whose stripped text passes [isdigit] and denotes the integer
    [a] for [int]: if [a < 18] the storage is cleared (no state, no data) and
    the handler does not ask again; if [a >= 18] the integer is stored under
    "age" and the state becomes [Apply.contact]. *)
Theorem apply_age_digits (ctx : FSMContext) (t : string) (a : Z)
    (cap : option string) :
  state ctx = Some Apply.age ->
  Text.isdigit (Text.strip t) = true ->
  Text.int (Text.strip t) = Some a ->
  let r := apply_age (mkMessage (Some t) cap) ctx in
  res_val r = inr tt
  /\ (a < 18 ->
      res_ctx r = mkCtx None ∅
      /\ res_out r = [Incoming (Some t); Send AdultsOnly NoMarkup])
  /\ (18 <= a ->
      res_ctx r = mkCtx (Some Apply.contact) (<["age" := VInt a]> (data ctx))
      /\ res_out r = [Incoming (Some t); Send AskContact NoMarkup]).
Proof.
  intros _ Hdigit Hint. run_handler. rewrite Hdigit. cbn. rewrite Hint. cbn.
  destruct (a <? 18) eqn:E; cbn.
  - apply Z.ltb_lt in E. repeat split; intros; try reflexivity; lia.
  - apply Z.ltb_ge in E. repeat split; intros; try reflexivity; lia.
Qed.

Lemma apply_age_digits_witness :
  state ctx_age = Some Apply.age
  /\ Text.isdigit (Text.strip " 25 ") = true
  /\ Text.int (Text.strip " 25 ") = Some 25
  /\ res_ctx (apply_age (mkMessage (Some " 25 ") None) ctx_age)
     = mkCtx (Some Apply.contact) (<["age" := VInt 25]> (data ctx_age)).
Proof.
  split; [reflexivity|]. split; [reflexivity|]. split; [reflexivity|].
  apply (apply_age_digits ctx_age " 25 " 25 None eq_refl eq_refl eq_refl).
  lia.
Defined.

(** An age under 18 ends the form. *)
Example apply_age_minor :
  apply_age (mkMessage (Some "17") None) ctx_age
  = mkRes (inr tt) (mkCtx None ∅) [Incoming (Some "17"); Send AdultsOnly NoMarkup].
Proof. reflexivity. Qed.




(** C10. For every input to [apply_name], [apply_contact] or [apply_done]
    whose text strips to the empty string, the empty string is stored as the
    field's value and the form moves on: to [Apply.age], to
    [Apply.experience], and for the last field to the summary (which holds
    the empty experience) and the cleared storage. *)
Theorem apply_accepts_empty_text (ctx : FSMContext) (t : string)
    (cap : option string) :
  Text.strip t = "" ->
  apply_name (mkMessage (Some t) cap) ctx
  = mkRes (inr tt) (mkCtx (Some Apply.age) (<["name" := VStr ""]> (data ctx)))
      [Incoming (Some t); Send AskAge NoMarkup]
  /\ apply_contact (mkMessage (Some t) cap) ctx
     = mkRes (inr tt)
         (mkCtx (Some Apply.experience) (<["contact" := VStr ""]> (data ctx)))
         [Incoming (Some t); Send AskExperience NoMarkup]
  /\ apply_done (mkMessage (Some t) cap) ctx
     = mkRes (inr tt) (mkCtx None ∅)
         [Incoming (Some t); Send ApplicationSent MainKb;
          Notify (mkSummary (data ctx !! "name") (data ctx !! "age")
                    (data ctx !! "contact") (Some (VStr "")))].
Proof.
  intros Hstrip. repeat split; run_handler; rewrite Hstrip; try reflexivity.
  rewrite lookup_insert_eq, !lookup_insert_ne by discriminate. reflexivity.
Qed.

Lemma apply_accepts_empty_text_witness :
  Text.strip "   " = ""
  /\ apply_name (mkMessage (Some "   ") None) fresh
     = mkRes (inr tt) (mkCtx (Some Apply.age) (<["name" := VStr ""]> ∅))
         [Incoming (Some "   "); Send AskAge NoMarkup].
Proof.
  split; [reflexivity|].
  apply (apply_accepts_empty_text fresh "   " None eq_refl).
Defined.

(** ** The rate gate *)

(** C4. For every user and event class, once a timestamp [last] is recorded
    for them: a call whose [now] is less than the class's interval (0.8 s
    for messages, 0.3 s for callbacks) after [last] is dropped and leaves
    the whole middleware state as it was; a call at least the interval after
    [last] is passed to the handler and records [now] for that user and
    class, leaving the other class, the other users and the limits alone. *)
Theorem AntiFlood_second_call (self : AntiFloodMiddleware) (cls : EventClass)
    (uid : Z) (last now : Q) :
  limit_msg self = limit_msg af ->
  limit_cb self = limit_cb af ->
  last_admitted self cls uid = Some last ->
  ((now - last < configured_interval cls)%Q ->
     exists answered,
       AntiFlood_call self cls (Some uid) now = (Dropped answered, self))
  /\ ((configured_interval cls <= now - last)%Q ->
       exists self',
         AntiFlood_call self cls (Some uid) now = (Passed, self')
         /\ last_admitted self' cls uid = Some now
         /\ (forall cls' uid', (cls', uid') <> (cls, uid) ->
               last_admitted self' cls' uid' = last_admitted self cls' uid')
         /\ limit_msg self' = limit_msg self
         /\ limit_cb self' = limit_cb self).
Proof.
  intros Hm Hc Hlast. unfold AntiFlood_call, last_or_zero.
  change (limit_msg af) with (8 # 10) in Hm.
  change (limit_cb af) with (3 # 10) in Hc.
  destruct cls; cbn in Hlast; rewrite Hlast; cbn [default from_option];
    unfold id; cbn [configured_interval]; [rewrite <- Hm | rewrite <- Hc].
  - split; intros H.
    + apply Qltb_lt in H. rewrite H. eauto.
    + apply Qltb_ge in H. rewrite H. eexists. split; [reflexivity|].
      cbn. rewrite lookup_insert_eq. repeat split; auto.
      intros [] uid' Hne; cbn; [|reflexivity].
      apply lookup_insert_ne. congruence.
  - split; intros H.
    + apply Qltb_lt in H. rewrite H. eauto.
    + apply Qltb_ge in H. rewrite H. eexists. split; [reflexivity|].
      cbn. rewrite lookup_insert_eq. repeat split; auto.
      intros [] uid' Hne; cbn; [reflexivity|].
      apply lookup_insert_ne. congruence.
Qed.

Lemma AntiFlood_second_call_witness :
  AntiFlood_call af IsMessage (Some 7) 10 = (Passed, af_after_first)
  /\ last_admitted af_after_first IsMessage 7 = Some 10%Q
  /\ ((21 # 2) - 10 < configured_interval IsMessage)%Q
  /\ (configured_interval IsMessage <= 11 - 10)%Q
  /\ (exists answered,
        AntiFlood_call af_after_first IsMessage (Some 7) (21 # 2)
        = (Dropped answered, af_after_first))
  /\ (exists self',
        AntiFlood_call af_after_first IsMessage (Some 7) 11 = (Passed, self')
        /\ last_admitted self' IsMessage 7 = Some 11%Q).
Proof.
  assert (Hlast : last_admitted af_after_first IsMessage 7 = Some 10%Q)
    by reflexivity.
  assert (Hlt : ((21 # 2) - 10 < configured_interval IsMessage)%Q)
    by reflexivity.
  assert (Hge : (configured_interval IsMessage <= 11 - 10)%Q)
    by (intros H; discriminate H).
  split; [reflexivity|]. split; [exact Hlast|].
  split; [exact Hlt|]. split; [exact Hge|]. split.
  - exact (proj1 (AntiFlood_second_call af_after_first IsMessage 7 10 (21 # 2)
                    eq_refl eq_refl Hlast) Hlt).
  - destruct (proj2 (AntiFlood_second_call af_after_first IsMessage 7 10 11
                       eq_refl eq_refl Hlast) Hge) as (self' & Hcall & Hnew & _).
    exists self'. split; [exact Hcall | exact Hnew].
Defined.

(** A call never changes the limits, so every state the middleware of
    [main] reaches has the limits of [af]. *)
Lemma AntiFlood_limits_kept (self : AntiFloodMiddleware) (cls : EventClass)
    (from_user : option Z) (now : Q) :
  limit_msg (snd (AntiFlood_call self cls from_user now)) = limit_msg self
  /\ limit_cb (snd (AntiFlood_call self cls from_user now)) = limit_cb self.
Proof.
  unfold AntiFlood_call. destruct from_user as [uid|]; [|split; reflexivity].
  destruct cls.
  - destruct (Qltb _ _); split; reflexivity.
  - destruct (Qltb _ _); split; reflexivity.
Qed.

(** The first event of a user is measured against 0.0: it is dropped when
    the clock reads less than the interval. *)
Lemma AntiFlood_first_call (self : AntiFloodMiddleware) (uid : Z) (now : Q) :
  _last_msg self !! uid = None ->
  (now < limit_msg self)%Q ->
  AntiFlood_call self IsMessage (Some uid) now = (Dropped false, self).
Proof.
  intros Hnone Hlt. unfold AntiFlood_call, last_or_zero. rewrite Hnone. cbn.
  assert (H : Qltb (now - 0) (limit_msg self) = true).
  { apply Qltb_lt. unfold Qminus. rewrite Qplus_0_r. exact Hlt. }
  rewrite H. reflexivity.
Qed.

(** ** The item lookup *)

Lemma getitem_Some {A} (l : list A) (i : Z) (x : A) :
  getitem l i = Some x <->
  - Z.of_nat (length l) <= i < Z.of_nat (length l)
  /\ l !! Z.to_nat (i mod Z.of_nat (length l)) = Some x.
Proof.
  unfold getitem. set (n := Z.of_nat (length l)).
  destruct (0 <=? i) eqn:E0.
  - apply Z.leb_le in E0. split.
    + intros H. pose proof (lookup_lt_Some _ _ _ H) as Hlt.
      assert (i < n) by (unfold n; lia).
      rewrite Z.mod_small by lia. split; [lia | exact H].
    + intros [Hr H]. rewrite Z.mod_small in H by lia. exact H.
  - apply Z.leb_gt in E0.
    assert (Hmod : - n <= i -> i mod n = n + i).
    { intros Hge. rewrite <- (Z_mod_plus_full i 1 n).
      rewrite Z.mod_small by lia. lia. }
    destruct (- n <=? i) eqn:E1.
    + apply Z.leb_le in E1. rewrite Hmod by exact E1.
      split; [intros H; split; [lia | exact H] | intros [_ H]; exact H].
    + apply Z.leb_gt in E1. split; [discriminate | lia].
Qed.

Lemma getitem_None {A} (l : list A) (i : Z) :
  getitem l i = None <->
  i < - Z.of_nat (length l) \/ Z.of_nat (length l) <= i.
Proof.
  unfold getitem. set (n := Z.of_nat (length l)).
  destruct (0 <=? i) eqn:E0.
  - apply Z.leb_le in E0. rewrite lookup_ge_None. unfold n. lia.
  - apply Z.leb_gt in E0. destruct (- n <=? i) eqn:E1.
    + apply Z.leb_le in E1. rewrite lookup_ge_None. unfold n in *. lia.
    + apply Z.leb_gt in E1. split; [lia | reflexivity].
Qed.

Section LookupFacts.

Variable CATEGORIES : list Category.

(** C9, as amended. For every pair of integers: a pair inside the rendered
    range yields the item at that position; an item is returned exactly for
    indices from minus the length up to the length of their list, a negative
    index counting from the end, so that the returned item stands at the
    positions [cidx mod n] and [iidx mod m]; a category index outside that
    range fails with [IndexError]; every failure is an [IndexError], or a
    [KeyError] when the selected category has no items key: for a category
    index in range, the lookup fails with [KeyError] when the category has
    no items key, and with [IndexError] when it has one and the item index
    is out of range. *)
Theorem item_at_python_indexing (cidx iidx : Z) :
  (forall cat items item,
      0 <= cidx -> CATEGORIES !! Z.to_nat cidx = Some cat ->
      cat_items cat = Some items ->
      0 <= iidx -> items !! Z.to_nat iidx = Some item ->
      item_at CATEGORIES cidx iidx = inr item)
  /\ (forall item,
        item_at CATEGORIES cidx iidx = inr item <->
        exists cat items,
          - Z.of_nat (length CATEGORIES) <= cidx < Z.of_nat (length CATEGORIES)
          /\ CATEGORIES !! Z.to_nat (cidx mod Z.of_nat (length CATEGORIES)) = Some cat
          /\ cat_items cat = Some items
          /\ - Z.of_nat (length items) <= iidx < Z.of_nat (length items)
          /\ items !! Z.to_nat (iidx mod Z.of_nat (length items)) = Some item)
  /\ (cidx < - Z.of_nat (length CATEGORIES) \/ Z.of_nat (length CATEGORIES) <= cidx ->
      item_at CATEGORIES cidx iidx = inl IndexError)
  /\ (forall e, item_at CATEGORIES cidx iidx = inl e ->
                e = IndexError \/ e = KeyError)
  /\ (forall cat, getitem CATEGORIES cidx = Some cat ->
        (cat_items cat = None -> item_at CATEGORIES cidx iidx = inl KeyError)
        /\ (forall items, cat_items cat = Some items ->
              iidx < - Z.of_nat (length items) \/ Z.of_nat (length items) <= iidx ->
              item_at CATEGORIES cidx iidx = inl IndexError)).
Proof.
  split; [|split; [|split; [|split]]].
  - intros cat items item Hc Hcat Hitems Hi Hitem. unfold item_at.
    assert (H1 : getitem CATEGORIES cidx = Some cat).
    { unfold getitem. apply Z.leb_le in Hc. rewrite Hc. exact Hcat. }
    assert (H2 : getitem items iidx = Some item).
    { unfold getitem. apply Z.leb_le in Hi. rewrite Hi. exact Hitem. }
    rewrite H1, Hitems, H2. reflexivity.
  - intros item. unfold item_at. split.
    + destruct (getitem CATEGORIES cidx) as [cat|] eqn:E1; [|discriminate].
      destruct (cat_items cat) as [items|] eqn:E2; [|discriminate].
      destruct (getitem items iidx) as [it|] eqn:E3; [|discriminate].
      intros H. inversion H; subst it.
      apply getitem_Some in E1 as [? ?]. apply getitem_Some in E3 as [? ?].
      exists cat, items. auto.
    + intros (cat & items & Hr1 & Hl1 & Hitems & Hr2 & Hl2).
      rewrite (proj2 (getitem_Some CATEGORIES cidx cat) (conj Hr1 Hl1)).
      rewrite Hitems.
      rewrite (proj2 (getitem_Some items iidx item) (conj Hr2 Hl2)).
      reflexivity.
  - intros Hout. unfold item_at.
    rewrite (proj2 (getitem_None CATEGORIES cidx) Hout). reflexivity.
  - intros e. unfold item_at.
    destruct (getitem CATEGORIES cidx) as [cat|]; [|intros H; inversion H; auto].
    destruct (cat_items cat) as [items|]; [|intros H; inversion H; auto].
    destruct (getitem items iidx); intros H; inversion H; auto.
  - intros cat Hcat. unfold item_at. rewrite Hcat. split.
    + intros Hnone. rewrite Hnone. reflexivity.
    + intros items Hitems Hout. rewrite Hitems.
      rewrite (proj2 (getitem_None items iidx) Hout). reflexivity.
Qed.

End LookupFacts.

(** C9, as stated, fails: the pair (-2, 0) is outside the rendered range of
    the sample knowledge base, and the lookup returns its first item. *)
Lemma item_at_negative_index :
  item_at kb_demo (-2) 0 = inr item_demo
  /\ ~ rendered kb_demo (-2) 0
  /\ ~ (forall cidx iidx item,
          item_at kb_demo cidx iidx = inr item -> rendered kb_demo cidx iidx).
Proof.
  assert (Hout : ~ rendered kb_demo (-2) 0).
  { intros (cat & items & Hc & _). lia. }
  split; [reflexivity|]. split; [exact Hout|].
  intros H. apply Hout. apply (H (-2) 0 item_demo). reflexivity.
Qed.

(** ** The router *)

Lemma is_command_true me cmd m :
  is_command me cmd m = true -> command_of me m = Some cmd.
Proof. unfold is_command. apply bool_decide_eq_true_1. Qed.

Lemma data_is_true v c : data_is v c = true -> cb_data c = Some v.
Proof. unfold data_is. apply bool_decide_eq_true_1. Qed.

(** A text whose stripped form passes [isdigit] carries no command. *)
Lemma digits_no_command me t cap :
  Text.isdigit (Text.strip t) = true ->
  command_of me (mkMessage (Some t) cap) = None.
Proof.
  intros Hd. unfold command_of, command_text, Text.first_word.
  cbn [text truthy].
  destruct t as [|c0 t0]; [discriminate Hd|].
  cbn [mbind option_bind]. set (t := String c0 t0) in *.
  unfold Text.strip in Hd.
  destruct (NormalizeFacts.lstrip_head t) as [E | (c & r & E & Hc)]; rewrite E in *.
  - discriminate Hd.
  - destruct (NormalizeFacts.rstrip_head c r Hc) as [r' Hr]. rewrite Hr in Hd.
    cbn in Hd. apply andb_true_iff in Hd as [Hdc _].
    cbn [Text.take_word]. rewrite Hc. cbn [mbind option_bind].
    destruct (Ascii.eqb_spec c "/") as [-> | _]; [discriminate Hdc | reflexivity].
Qed.

(** A message without a command goes to the handler of the user's state. *)
Lemma route_no_command me st m :
  command_of me m = None ->
  route me st (EvMessage m)
  = Some match st with
         | None => h_on_free_text
         | Some Apply.name => h_apply_name
         | Some Apply.age => h_apply_age
         | Some Apply.contact => h_apply_contact
         | Some Apply.experience => h_apply_done
         end.
Proof.
  intros H. unfold route, message_handlers, is_command. rewrite H.
  destruct st as [[]|]; reflexivity.
Qed.

(** C5, as amended. For every event that is a navigation action other than
    cancelling (which the code does not have) and other than the text
    command [/contact] sent while a form is in progress, the router runs the
    handler of that action whatever the state of the form is, and that
    handler neither takes the event as a field of the form nor hands it to
    the matcher. *)
Theorem navigation_routed_directly (me : option string) (st : option Apply.t)
    (event : Event) (a : NavAction) :
  nav_action me event = Some a ->
  a <> Cancel ->
  (a = ShowContact -> is_callback event = true \/ st = None) ->
  exists h,
    nav_handler a event = Some h
    /\ route me st event = Some h
    /\ takes_field_input h = false
    /\ asks_matcher h = false.
Proof.
  intros Hnav Hcancel Hcontact. destruct event as [m | c]; cbn in Hnav.
  - unfold route, message_handlers.
    destruct (is_command me "faq" m) eqn:Efaq.
    { apply is_command_true in Efaq. unfold is_command. rewrite Efaq.
      inversion Hnav; subst a. exists h_on_faq. repeat split. }
    destruct (is_command me "apply" m) eqn:Eapply.
    { apply is_command_true in Eapply. unfold is_command. rewrite Eapply.
      inversion Hnav; subst a. exists h_start_apply. repeat split. }
    destruct (is_command me "contact" m) eqn:Econtact.
    { inversion Hnav; subst a.
      destruct (Hcontact eq_refl) as [H | ->]; [discriminate|].
      apply is_command_true in Econtact. unfold is_command. rewrite Econtact.
      exists h_contact. repeat split. }
    destruct (is_command me "cancel" m); inversion Hnav; subst a; congruence.
  - unfold route, callback_handlers.
    destruct (data_is "faq" c) eqn:E1.
    { inversion Hnav; subst a. exists h_cb_faq. repeat split. }
    destruct (data_startswith "cat:" c) eqn:E2.
    { inversion Hnav; subst a. exists h_cb_category. repeat split. }
    destruct (data_startswith "item:" c) eqn:E3.
    { inversion Hnav; subst a. exists h_cb_item. repeat split. }
    destruct (data_is "apply" c) eqn:E4.
    { inversion Hnav; subst a. exists h_start_apply. repeat split. }
    destruct (data_is "contact" c) eqn:E5.
    { inversion Hnav; subst a. exists h_contact. repeat split. }
    destruct (data_is "cancel" c); inversion Hnav; subst a; congruence.
Qed.

Lemma navigation_routed_directly_witness :
  nav_action bot_name (cbq "contact") = Some ShowContact
  /\ ShowContact <> Cancel
  /\ is_callback (cbq "contact") = true
  /\ exists h,
       nav_handler ShowContact (cbq "contact") = Some h
       /\ route bot_name (Some Apply.age) (cbq "contact") = Some h
       /\ takes_field_input h = false
       /\ asks_matcher h = false.
Proof.
  split; [reflexivity|]. split; [discriminate|]. split; [reflexivity|].
  apply (navigation_routed_directly bot_name (Some Apply.age) (cbq "contact")
           ShowContact eq_refl).
  - discriminate.
  - intros _. left. reflexivity.
Defined.

(** C5, as stated, fails. The command [/contact] sent while the name is
    asked for goes to [apply_name], which stores it as the name; and nothing
    is registered for cancelling: [/cancel] is taken as a field of the form,
    or given to the matcher when no form is in progress, and the callback
    data [cancel] is taken by no handler. *)
Lemma contact_command_taken_as_field :
  nav_action bot_name (msg "/contact") = Some ShowContact
  /\ route bot_name (Some Apply.name) (msg "/contact") = Some h_apply_name
  /\ res_ctx (handle Difflib.ratio kb_demo bot_name (mkCtx (Some Apply.name) ∅)
               (msg "/contact"))
     = mkCtx (Some Apply.age) {[ "name" := VStr "/contact" ]}
  /\ nav_action bot_name (msg "/cancel") = Some Cancel
  /\ route bot_name (Some Apply.age) (msg "/cancel") = Some h_apply_age
  /\ route bot_name None (msg "/cancel") = Some h_on_free_text
  /\ route bot_name None (cbq "cancel") = None.
Proof. repeat split. Qed.

(** ** The sessions the form can reach *)

Lemma pure_ret {A} (x : A) : pure (mret x).
Proof. intros ctx. reflexivity. Qed.

Lemma pure_raise {A} e : pure (@raise A e).
Proof. intros ctx. reflexivity. Qed.

Lemma pure_emit o : pure (emit o).
Proof. intros ctx. reflexivity. Qed.

Lemma pure_or_raise {A} e (x : option A) : pure (or_raise e x).
Proof. destruct x; [apply pure_ret | apply pure_raise]. Qed.

Lemma pure_bind {A B} (m : M A) (f : A -> M B) :
  pure m -> (forall a, pure (f a)) -> pure (m ≫= f).
Proof.
  intros Hm Hf ctx. unfold mbind, M_bind.
  destruct (res_val (m ctx)) as [e | a] eqn:E; cbn.
  - apply Hm.
  - rewrite Hf. apply Hm.
Qed.

Lemma pure_log m : pure (log_and_forward_incoming m).
Proof. destruct m; intros ctx; reflexivity. Qed.

Lemma pure_send m t kb : pure (send_and_log m t kb).
Proof. destruct m; intros ctx; reflexivity. Qed.

Create HintDb pure_db.
#[export] Hint Resolve pure_ret pure_raise pure_emit pure_or_raise pure_log
  pure_send : pure_db.
#[export] Hint Extern 2 (pure (_ ≫= _)) => apply pure_bind; [|intros] : pure_db.
#[export] Hint Extern 3 (pure (match ?x with _ => _ end)) => destruct x : pure_db.

Section RouterFacts.

Variable ratio : string -> string -> Q.
Variable CATEGORIES : list Category.
Variable me : option string.

Lemma pure_on_start m : pure (on_start m).
Proof. unfold on_start. auto with pure_db. Qed.

Lemma pure_on_help m : pure (on_help m).
Proof. unfold on_help. auto with pure_db. Qed.

Lemma pure_on_faq m : pure (on_faq CATEGORIES m).
Proof. unfold on_faq. auto with pure_db. Qed.

Lemma pure_cb_faq c : pure (cb_faq CATEGORIES c).
Proof. unfold cb_faq. pose proof pure_on_faq. auto with pure_db. Qed.

Lemma pure_cb_category c : pure (cb_category CATEGORIES c).
Proof. unfold cb_category. auto 12 with pure_db. Qed.

Lemma pure_cb_item c : pure (cb_item CATEGORIES c).
Proof. unfold cb_item. auto 12 with pure_db. Qed.

Lemma pure_contact e : pure (contact e).
Proof. unfold contact, answer_if_callback. auto 8 with pure_db. Qed.

Lemma pure_on_free_text m : pure (on_free_text ratio CATEGORIES m).
Proof. unfold on_free_text. auto 12 with pure_db. Qed.

(** A handler of the form runs only in its own state. *)
Lemma route_field_state st event h :
  route me st event = Some h ->
  match h with
  | h_apply_name => st = Some Apply.name
  | h_apply_age => st = Some Apply.age
  | h_apply_contact => st = Some Apply.contact
  | h_apply_done => st = Some Apply.experience
  | _ => True
  end.
Proof.
  destruct event as [m | c]; unfold route, message_handlers, callback_handlers.
  - destruct (is_command me "start" m), (is_command me "help" m),
      (is_command me "faq" m), (is_command me "apply" m),
      (is_command me "contact" m);
      destruct st as [[]|]; cbn; intros H; inversion H; subst; auto.
  - destruct (data_is "faq" c), (data_startswith "cat:" c),
      (data_startswith "item:" c), (data_is "apply" c), (data_is "contact" c);
      cbn; intros H; inversion H; subst; auto.
Qed.

(** [start_apply] sets the state when it can read the sender of the
    message, and raises before anything else when it cannot. *)
Lemma start_apply_ctx event ctx :
  message_accessible event = true ->
  res_val (start_apply event ctx) = inr tt
  /\ res_ctx (start_apply event ctx) = mkCtx (Some Apply.name) (data ctx).
Proof.
  destruct event as [m | [d [m|]]]; cbn; intros H;
    [split; reflexivity | split; reflexivity | discriminate H].
Qed.

Lemma start_apply_inaccessible event ctx :
  message_accessible event = false ->
  start_apply event ctx = mkRes (inl AttributeError) ctx [].
Proof.
  destruct event as [m | [d [m|]]]; cbn; intros H;
    [discriminate H | discriminate H | reflexivity].
Qed.

(** Every event moves the storage by one of the steps. *)
Lemma handle_step ctx event :
  step ctx (res_ctx (handle ratio CATEGORIES me ctx event)).
Proof.
  unfold handle.
  destruct (route me (state ctx) event) as [h|] eqn:R; [|apply step_none].
  pose proof (route_field_state _ _ _ R) as Hst.
  destruct h, event as [m | c]; cbn [run];
    try (rewrite ?pure_on_start, ?pure_on_help, ?pure_on_faq, ?pure_cb_faq,
           ?pure_cb_category, ?pure_cb_item, ?pure_contact, ?pure_on_free_text;
         apply step_none);
    try (match goal with
         | |- step _ (res_ctx (start_apply ?e _)) =>
             destruct (message_accessible e) eqn:Hacc;
             [rewrite (proj2 (start_apply_ctx e ctx Hacc)); apply step_start
             |rewrite (start_apply_inaccessible e ctx Hacc); apply step_none]
         end).
  - (* apply_name *)
    destruct m as [[t|] cap]; run_handler; [|apply step_none].
    apply step_name. exact Hst.
  - (* apply_age *)
    destruct m as [[t|] cap]; run_handler; [|apply step_none].
    destruct (Text.isdigit (Text.strip t)); cbn; [|apply step_none].
    destruct (Text.int (Text.strip t)) as [a|]; cbn; [|apply step_none].
    destruct (a <? 18) eqn:E; cbn.
    + apply step_minor. exact Hst.
    + apply step_age; [exact Hst | apply Z.ltb_ge; exact E].
  - (* apply_contact *)
    destruct m as [[t|] cap]; run_handler; [|apply step_none].
    apply step_contact. exact Hst.
  - (* apply_done *)
    destruct m as [[t|] cap]; run_handler; [|apply step_none].
    apply step_done. exact Hst.
Qed.

Lemma fresh_ok : session_ok fresh.
Proof.
  unfold session_ok, fresh. cbn. repeat split.
  - intros k [].
  - intros k [v Hv]. rewrite lookup_empty in Hv. discriminate.
  - intros v Hv. rewrite lookup_empty in Hv. discriminate.
Qed.

Lemma step_ok ctx ctx' : step ctx ctx' -> session_ok ctx -> session_ok ctx'.
Proof.
  intros Hstep (Hidle & Hpassed & Hdom & Hage).
  destruct Hstep as [ctx | ctx | ctx t Hs | ctx a Hs Ha | ctx Hs | ctx t Hs | ctx Hs];
    try exact (conj Hidle (conj Hpassed (conj Hdom Hage)));
    try exact fresh_ok;
    rewrite ?Hs in Hpassed; unfold session_ok; cbn [state data passed];
    (split; [discriminate|]).
  - repeat split; auto. intros k [].
  - repeat split.
    + intros k [<- | []]. rewrite lookup_insert_eq. eauto.
    + intros k. destruct (decide (k = "name")) as [-> | Hne]; [cbn; auto|].
      rewrite lookup_insert_ne by congruence. apply Hdom.
    + intros v. rewrite lookup_insert_ne by discriminate. apply Hage.
  - repeat split.
    + intros k [<- | [<- | []]].
      * rewrite lookup_insert_ne by discriminate. apply Hpassed. cbn. auto.
      * rewrite lookup_insert_eq. eauto.
    + intros k. destruct (decide (k = "age")) as [-> | Hne]; [cbn; auto|].
      rewrite lookup_insert_ne by congruence. apply Hdom.
    + intros v. rewrite lookup_insert_eq. intros H. inversion H. eauto.
  - repeat split.
    + intros k [<- | [<- | [<- | []]]].
      * rewrite lookup_insert_ne by discriminate. apply Hpassed. cbn. auto.
      * rewrite lookup_insert_ne by discriminate. apply Hpassed. cbn. auto.
      * rewrite lookup_insert_eq. eauto.
    + intros k. destruct (decide (k = "contact")) as [-> | Hne]; [cbn; auto|].
      rewrite lookup_insert_ne by congruence. apply Hdom.
    + intros v. rewrite lookup_insert_ne by discriminate. apply Hage.
Qed.

Lemma handle_all_ok events : forall ctx,
  session_ok ctx -> session_ok (handle_all ratio CATEGORIES me ctx events).
Proof.
  induction events as [|e events IH]; intros ctx Hok; [exact Hok|].
  cbn. apply IH. eapply step_ok; [apply handle_step | exact Hok].
Qed.

Lemma start_action_routed event st :
  is_start_action me event = true -> route me st event = Some h_start_apply.
Proof.
  destruct event as [m | c]; cbn; intros H.
  - apply is_command_true in H. unfold route, message_handlers, is_command.
    rewrite H. reflexivity.
  - apply data_is_true in H.
    unfold route, callback_handlers, data_is, data_startswith.
    rewrite H. reflexivity.
Qed.

(** The router gives a text of digits sent in the state [Apply.age] to
    [apply_age]. *)
Lemma handle_age_digits ctx t :
  state ctx = Some Apply.age ->
  Text.isdigit (Text.strip t) = true ->
  handle ratio CATEGORIES me ctx (msg t) = apply_age (mkMessage (Some t) None) ctx.
Proof.
  intros Hst Hd. unfold handle, msg.
  rewrite (route_no_command _ _ _ (digits_no_command me t None Hd)), Hst.
  reflexivity.
Qed.

(** C6, as amended. Triggering the start action in any state, with an
    event whose message is accessible (a message, or a button under an
    accessible message), sets the state to [Apply.name] and keeps the data
    collected so far (the answers that follow overwrite it field by field).
    A press of the button under an inaccessible message raises
    [AttributeError] before anything is sent or set: the form stays where it
    was. In every session reached from the fresh one, and in the one the
    start action leads to: a user with no form in progress has no data, the
    data holds a field for every state already passed, holds no field but
    name, age and contact, and a stored age is an integer of 18 or more. *)
Theorem restart_keeps_data (events : list Event) (event : Event) :
  is_start_action me event = true ->
  let ctx := handle_all ratio CATEGORIES me fresh events in
  let r := handle ratio CATEGORIES me ctx event in
  (message_accessible event = true ->
   res_val r = inr tt /\ res_ctx r = mkCtx (Some Apply.name) (data ctx))
  /\ (message_accessible event = false ->
      r = mkRes (inl AttributeError) ctx [])
  /\ session_ok ctx
  /\ session_ok (res_ctx r).
Proof.
  intros Hstart ctx r.
  assert (Hok : session_ok ctx) by (apply handle_all_ok, fresh_ok).
  assert (Hr : r = start_apply event ctx).
  { unfold r, handle. rewrite (start_action_routed _ _ Hstart). reflexivity. }
  split; [|split; [|split]].
  - intros Hacc. rewrite Hr. apply start_apply_ctx, Hacc.
  - intros Hacc. rewrite Hr. apply start_apply_inaccessible, Hacc.
  - exact Hok.
  - eapply step_ok; [apply handle_step | exact Hok].
Qed.

End RouterFacts.

Lemma restart_keeps_data_witness :
  is_start_action bot_name (cbq "apply") = true
  /\ message_accessible (cbq "apply") = true
  /\ let ctx := handle_all Difflib.ratio kb_demo bot_name fresh
                  [msg "/apply"; msg "Ivan"; msg "25"] in
     let r := handle Difflib.ratio kb_demo bot_name ctx (cbq "apply") in
     res_ctx r = mkCtx (Some Apply.name) (data ctx)
     /\ session_ok ctx
     /\ session_ok (res_ctx r).
Proof.
  split; [reflexivity|]. split; [reflexivity|].
  destruct (restart_keeps_data Difflib.ratio kb_demo bot_name
              [msg "/apply"; msg "Ivan"; msg "25"] (cbq "apply") eq_refl)
    as (Hacc & _ & Hok & Hok').
  split; [exact (proj2 (Hacc eq_refl))|]. split; [exact Hok | exact Hok'].
Defined.

(** C6, as stated, fails: a user who has given a name and an age and starts
    again is asked for the name while the data still holds the name and the
    age given before. *)
Lemma restart_leaves_stale_fields :
  let ctx := handle_all Difflib.ratio kb_demo bot_name fresh
               [msg "/apply"; msg "Ivan"; msg "25"; msg "/apply"] in
  state ctx = Some Apply.name
  /\ data ctx !! "name" = Some (VStr "Ivan")
  /\ data ctx !! "age" = Some (VInt 25)
  /\ data ctx <> ∅
  /\ ~ only_passed_fields ctx.
Proof.
  cbv zeta.
  set (ctx := handle_all Difflib.ratio kb_demo bot_name fresh
                [msg "/apply"; msg "Ivan"; msg "25"; msg "/apply"]).
  assert (Hname : data ctx !! "name" = Some (VStr "Ivan")) by reflexivity.
  split; [reflexivity|]. split; [exact Hname|]. split; [reflexivity|]. split.
  - intros Hempty. rewrite Hempty, lookup_empty in Hname. discriminate.
  - intros H. destruct (H "name" (ex_intro _ _ Hname)).
Qed.

(** The answers given after a restart replace the ones given before: the
    summary of a form completed after a restart holds the new answers
    only. *)
Example restarted_form_summary :
  res_out (handle Difflib.ratio kb_demo bot_name
             (handle_all Difflib.ratio kb_demo bot_name fresh
                [msg "/apply"; msg "Ivan"; msg "25"; cbq "apply";
                 msg "Ivan Petrov"; msg "26"; msg "@ivan"])
             (msg "none"))
  = [Incoming (Some "none"); Send ApplicationSent MainKb;
     Notify (mkSummary (Some (VStr "Ivan Petrov")) (Some (VInt 26))
               (Some (VStr "@ivan")) (Some (VStr "none")))].
Proof. reflexivity. Qed.

(** A form filled in from start to end, and one ended by the age. *)
Example form_completed :
  res_out (handle Difflib.ratio kb_demo bot_name
             (handle_all Difflib.ratio kb_demo bot_name fresh
                [cbq "apply"; msg "Ivan Petrov"; msg "25"; msg "@ivan"])
             (msg "none"))
  = [Incoming (Some "none"); Send ApplicationSent MainKb;
     Notify (mkSummary (Some (VStr "Ivan Petrov")) (Some (VInt 25))
               (Some (VStr "@ivan")) (Some (VStr "none")))]
  /\ handle_all Difflib.ratio kb_demo bot_name fresh
       [cbq "apply"; msg "Ivan Petrov"; msg "25"; msg "@ivan"; msg "none"]
     = fresh
  /\ handle_all Difflib.ratio kb_demo bot_name fresh
       [cbq "apply"; msg "Ivan Petrov"; msg "17"]
     = fresh.
Proof. repeat split; reflexivity. Qed.

(** * Further properties *)

(** ** Runs of the rate gate *)

Lemma AntiFlood_call_cases self cls uid now :
  let last := default 0%Q (last_admitted self cls uid) in
  ((now - last < limit_of self cls)%Q
   /\ exists answered, AntiFlood_call self cls (Some uid) now = (Dropped answered, self))
  \/ ((limit_of self cls <= now - last)%Q
      /\ exists self',
           AntiFlood_call self cls (Some uid) now = (Passed, self')
           /\ last_admitted self' cls uid = Some now
           /\ (forall cls' uid', (cls', uid') <> (cls, uid) ->
                 last_admitted self' cls' uid' = last_admitted self cls' uid')
           /\ (forall cls', limit_of self' cls' = limit_of self cls')).
Proof.
  cbv zeta. unfold AntiFlood_call, last_or_zero.
  destruct cls; cbn [last_admitted limit_of].
  - destruct (Qltb _ _) eqn:E.
    + left. apply Qltb_lt in E. eauto.
    + right. apply Qltb_ge in E. split; [exact E|]. eexists. split; [reflexivity|].
      cbn. rewrite lookup_insert_eq. split; [reflexivity|]. split.
      * intros [] uid' Hne; cbn; [|reflexivity]. apply lookup_insert_ne. congruence.
      * intros []; reflexivity.
  - destruct (Qltb _ _) eqn:E.
    + left. apply Qltb_lt in E. eauto.
    + right. apply Qltb_ge in E. split; [exact E|]. eexists. split; [reflexivity|].
      cbn. rewrite lookup_insert_eq. split; [reflexivity|]. split.
      * intros [] uid' Hne; cbn; [reflexivity|]. apply lookup_insert_ne. congruence.
      * intros []; reflexivity.
Qed.

Lemma passed_calls_spaced calls : forall self lim,
  (forall cls, limit_of self cls = lim cls) ->
  (forall cls, (0 <= lim cls)%Q) ->
  ForallOrdPairs
    (fun c1 c2 => call_cls c1 = call_cls c2 -> call_uid c1 = call_uid c2 ->
                  (lim (call_cls c1) <= call_now c2 - call_now c1)%Q)
    (passed_calls self calls)
  /\ Forall (fun c => forall last,
               last_admitted self (call_cls c) (call_uid c) = Some last ->
               (lim (call_cls c) <= call_now c - last)%Q)
       (passed_calls self calls).
Proof.
  induction calls as [|c rest IH]; intros self lim Hlim Hpos.
  - split; constructor.
  - cbn [passed_calls].
    destruct (AntiFlood_call_cases self (call_cls c) (call_uid c) (call_now c))
      as [(Hlt & a & Hc) | (Hge & self' & Hc & Hnew & Hother & Hlimits)];
      rewrite Hc.
    + apply IH; assumption.
    + assert (Hlim' : forall cls, limit_of self' cls = lim cls)
        by (intros cls; rewrite Hlimits; apply Hlim).
      destruct (IH self' lim Hlim' Hpos) as [IHa IHb].
      rewrite Hlim in Hge.
      split.
      * constructor; [|exact IHa].
        rewrite List.Forall_forall in IHb |- *.
        intros x Hx Hcls Huid.
        rewrite Hcls. apply (IHb x Hx). rewrite <- Hcls, <- Huid. exact Hnew.
      * constructor.
        -- intros last Hlast. rewrite Hlast in Hge. exact Hge.
        -- rewrite List.Forall_forall in IHb |- *.
           intros x Hx last Hlast.
           destruct (decide ((call_cls x, call_uid x) = (call_cls c, call_uid c)))
             as [Heq | Hne].
           ++ inversion Heq as [[Hcls Huid]].
              rewrite Hcls, Huid in Hlast. rewrite Hlast in Hge. cbn in Hge.
              pose proof (IHb x Hx (call_now c)) as Hx'.
              rewrite Hcls, Huid in Hx'. specialize (Hx' Hnew).
              rewrite Hcls. pose proof (Hpos (call_cls c)). lra.
           ++ apply (IHb x Hx). rewrite Hother by exact Hne. exact Hlast.
Qed.

(** X1: among the events a run of the middleware passes, two events of the
    same user and class are never closer than the limit of the class. *)
Theorem passed_calls_never_closer (self : AntiFloodMiddleware) (calls : list Call) :
  (0 <= limit_msg self)%Q -> (0 <= limit_cb self)%Q ->
  ForallOrdPairs (spaced self) (passed_calls self calls).
Proof.
  intros Hm Hc.
  apply (passed_calls_spaced calls self (limit_of self)).
  - reflexivity.
  - intros []; assumption.
Qed.

Lemma passed_calls_never_closer_witness :
  (0 <= limit_msg af)%Q /\ (0 <= limit_cb af)%Q
  /\ passed_calls af rush = [mkCall IsMessage 7 10; mkCall IsCallbackQuery 7 (101 # 10);
                             mkCall IsMessage 8 (21 # 2); mkCall IsMessage 7 11]
  /\ ForallOrdPairs (spaced af) (passed_calls af rush).
Proof.
  assert (Hm : (0 <= limit_msg af)%Q) by (intros H; discriminate H).
  assert (Hc : (0 <= limit_cb af)%Q) by (intros H; discriminate H).
  split; [exact Hm|]. split; [exact Hc|]. split; [reflexivity|].
  exact (passed_calls_never_closer af rush Hm Hc).
Defined.

Lemma same_sender_true cls uid c :
  same_sender cls uid c = true <-> call_cls c = cls /\ call_uid c = uid.
Proof.
  unfold same_sender. rewrite andb_true_iff, !bool_decide_eq_true. reflexivity.
Qed.

(** What the middleware passes of the events of one user and class depends
    on the time recorded for that user and class and on the limits only. *)
Lemma passed_calls_agree cls uid calls : forall self1 self2,
  Forall (fun c => same_sender cls uid c = true) calls ->
  last_admitted self1 cls uid = last_admitted self2 cls uid ->
  (forall cls', limit_of self1 cls' = limit_of self2 cls') ->
  passed_calls self1 calls = passed_calls self2 calls.
Proof.
  induction calls as [|c rest IH]; intros self1 self2 Hall Hlast Hlim;
    [reflexivity|].
  inversion Hall as [|? ? Hc Hrest]; subst.
  apply same_sender_true in Hc as [Hcls Huid].
  cbn [passed_calls]. rewrite Hcls, Huid.
  destruct (AntiFlood_call_cases self1 cls uid (call_now c))
    as [(Hlt1 & a1 & Hc1) | (Hge1 & s1 & Hc1 & Hnew1 & _ & Hlim1)];
  destruct (AntiFlood_call_cases self2 cls uid (call_now c))
    as [(Hlt2 & a2 & Hc2) | (Hge2 & s2 & Hc2 & Hnew2 & _ & Hlim2)];
    rewrite Hc1, Hc2.
  - apply IH; assumption.
  - exfalso. rewrite Hlast, Hlim in Hlt1. lra.
  - exfalso. rewrite Hlast, Hlim in Hge1. lra.
  - f_equal. apply IH; [assumption | congruence |].
    intros cls'. rewrite Hlim1, Hlim2. apply Hlim.
Qed.

(** X2: the middleware limits every user and class on its own: what it
    passes of the events of one user and class is what it would pass had the
    events of other users and of the other class never arrived. *)
Theorem passed_calls_per_sender (self : AntiFloodMiddleware) (cls : EventClass)
    (uid : Z) (calls : list Call) :
  List.filter (same_sender cls uid) (passed_calls self calls)
  = passed_calls self (List.filter (same_sender cls uid) calls).
Proof.
  revert self. induction calls as [|c rest IH]; intros self; [reflexivity|].
  cbn [passed_calls List.filter].
  destruct (same_sender cls uid c) eqn:E.
  - cbn [passed_calls].
    destruct (AntiFlood_call_cases self (call_cls c) (call_uid c) (call_now c))
      as [(_ & a & Hc) | (_ & self' & Hc & _)]; rewrite Hc.
    + apply IH.
    + cbn [List.filter]. rewrite E. f_equal. apply IH.
  - destruct (AntiFlood_call_cases self (call_cls c) (call_uid c) (call_now c))
      as [(_ & a & Hc) | (_ & self' & Hc & _ & Hother & Hlim)]; rewrite Hc.
    + apply IH.
    + cbn [List.filter]. rewrite E, IH.
      apply passed_calls_agree with (cls := cls) (uid := uid).
      * apply List.Forall_forall. intros x Hx.
        apply filter_In in Hx as [_ Hx]. exact Hx.
      * apply Hother. intros Heq. inversion Heq as [[Hcls Huid]].
        assert (Ht : same_sender cls uid c = true)
          by (apply same_sender_true; split; congruence).
        rewrite Ht in E. discriminate E.
      * exact Hlim.
Qed.

(** ** The matcher and the free-text handler *)

Section MatcherExtras.

Variable ratio : string -> string -> Q.
Variable CATEGORIES : list Category.

(** [resolve] returns nothing and every pattern scores below 0.63, or it
    returns an item that owns a pattern with the returned score, which is
    0.63 or more. *)
Lemma resolve_cases (utterance : string) :
  let q := normalize utterance in
  let result := resolve ratio CATEGORIES utterance in
  (fst result = None
   /\ forall item p, owns CATEGORIES item p -> (ratio q (normalize p) < 63 # 100)%Q)
  \/ (exists item p,
        fst result = Some item
        /\ (63 # 100 <= snd result)%Q
        /\ owns CATEGORIES item p
        /\ snd result = ratio q (normalize p)).
Proof.
  cbv zeta.
  pose proof (best_faq_answer_cases ratio CATEGORIES utterance (63 # 100))
    as [Hbound Hcases].
  fold (resolve ratio CATEGORIES utterance) in Hbound, Hcases.
  cbv zeta in *.
  set (q := normalize utterance) in *.
  set (result := resolve ratio CATEGORIES utterance) in *.
  rewrite List.Forall_forall in Hbound.
  destruct Hcases as [[Hres Hall] | (pre & item' & post & Hl & _ & _ & Hpos & Hfst)].
  - left. rewrite Hres. cbn [fst snd]. split; [reflexivity|].
    intros item p Hown.
    rewrite List.Forall_forall in Hall.
    assert (Hin : In (item, ratio q (normalize p)) (scores ratio q CATEGORIES))
      by (apply in_scores; eauto).
    specialize (Hall _ Hin). cbn in Hall. lra.
  - assert (Hin' : In (item', snd result) (scores ratio q CATEGORIES)).
    { rewrite Hl. apply in_or_app. right. left. reflexivity. }
    apply in_scores in Hin' as (p' & Hown' & Hs).
    destruct (Qle_bool (63 # 100) (snd result)) eqn:E.
    + apply Qle_bool_iff in E. right. exists item', p'. auto.
    + assert (Hlt : (snd result < 63 # 100)%Q).
      { apply Qnot_le_lt. intros H. apply Qle_bool_iff in H. congruence. }
      left. split; [exact Hfst|].
      intros item p Hown.
      assert (Hin : In (item, ratio q (normalize p)) (scores ratio q CATEGORIES))
        by (apply in_scores; eauto).
      specialize (Hbound _ Hin). cbn in Hbound. lra.
Qed.

(** X3: [resolve] returns an item exactly when some pattern of the knowledge
    base scores at least 0.63 against the normalized utterance, and the item
    it returns owns a pattern whose score is the returned score. *)
Theorem resolve_match_iff (utterance : string) :
  let q := normalize utterance in
  let result := resolve ratio CATEGORIES utterance in
  (fst result = None <->
   forall item p, owns CATEGORIES item p -> (ratio q (normalize p) < 63 # 100)%Q)
  /\ (forall item, fst result = Some item ->
        (63 # 100 <= snd result)%Q
        /\ exists p, owns CATEGORIES item p /\ snd result = ratio q (normalize p)).
Proof.
  cbv zeta.
  destruct (resolve_cases utterance)
    as [[Hn Hall] | (item & p & Hs & Hge & Hown & Hsc)]; cbv zeta in *.
  - split.
    + split; [intros _; exact Hall | intros _; exact Hn].
    + intros item H. rewrite Hn in H. discriminate H.
  - split.
    + split; [rewrite Hs; discriminate|].
      intros H. specialize (H item p Hown). rewrite <- Hsc in H. lra.
    + intros item0 H. rewrite Hs in H. inversion H; subst item0.
      split; [exact Hge | eauto].
Qed.

(** X4: the score [best_faq_answer] returns does not depend on the
    threshold, and an item returned at one threshold is returned at every
    lower one. *)
Theorem best_faq_answer_threshold (user_text : string) (t t' : Q) (item : Item) :
  (t' <= t)%Q ->
  fst (best_faq_answer ratio CATEGORIES user_text t) = Some item ->
  fst (best_faq_answer ratio CATEGORIES user_text t') = Some item
  /\ snd (best_faq_answer ratio CATEGORIES user_text t')
     = snd (best_faq_answer ratio CATEGORIES user_text t).
Proof.
  unfold best_faq_answer. intros Hle.
  set (best := fold_left _ CATEGORIES _).
  destruct (Qle_bool t (snd best)) eqn:E; [|discriminate].
  apply Qle_bool_iff in E. intros Hitem.
  assert (E' : Qle_bool t' (snd best) = true)
    by (apply Qle_bool_iff; eapply Qle_trans; eauto).
  rewrite E'. split; [exact Hitem | reflexivity].
Qed.

Lemma owns_truthy item p : owns CATEGORIES item p -> item_truthy item = true.
Proof.
  intros (cat & _ & _ & Hp). unfold item_truthy.
  destruct (item_patterns item); [reflexivity | destruct Hp].
Qed.

(** X5: [on_free_text] never raises and never touches the storage; after
    the log of the incoming text it sends exactly one reply: the fallback
    when no pattern scores 0.63 or more, else the answer of the item
    [resolve] returns. A message without text is matched as the empty
    string. *)
Theorem on_free_text_one_reply (m : Message) (ctx : FSMContext) :
  let q := normalize (get_or (text m) "") in
  exists reply,
    on_free_text ratio CATEGORIES m ctx
    = mkRes (inr tt) ctx [Incoming (text m); reply]
    /\ (reply = Send NotFound MainKb <->
        forall item p, owns CATEGORIES item p ->
                       (ratio q (normalize p) < 63 # 100)%Q)
    /\ (forall item,
          fst (resolve ratio CATEGORIES (get_or (text m) "")) = Some item ->
          reply = answer_of item).
Proof.
  cbv zeta.
  unfold on_free_text, log_and_forward_incoming, send_and_log, emit.
  unfold mbind, M_bind. cbn [res_val res_ctx res_out].
  destruct (resolve_cases (get_or (text m) ""))
    as [[Hn Hall] | (item & p & Hs & Hge & Hown & Hsc)]; cbv zeta in *.
  - rewrite Hn. exists (Send NotFound MainKb). split; [reflexivity|]. split.
    + split; [intros _; exact Hall | reflexivity].
    + intros item' H. discriminate H.
  - rewrite Hs, (owns_truthy item p Hown).
    exists (answer_of item). split; [|split].
    + unfold answer_of. destruct (item_image item) as [[|c i]|]; reflexivity.
    + split.
      * intros Hr. exfalso. unfold answer_of in Hr.
        destruct (item_image item) as [[|c i]|]; discriminate Hr.
      * intros H. exfalso. specialize (H item p Hown). rewrite <- Hsc in H. lra.
    + intros item' H. inversion H. reflexivity.
Qed.

End MatcherExtras.

Lemma best_faq_answer_threshold_witness :
  (1 # 2 <= 63 # 100)%Q
  /\ fst (best_faq_answer Difflib.ratio kb_demo "start streaming" (63 # 100))
     = Some item_demo
  /\ fst (best_faq_answer Difflib.ratio kb_demo "start streaming" (1 # 2))
     = Some item_demo
  /\ snd (best_faq_answer Difflib.ratio kb_demo "start streaming" (1 # 2))
     = snd (best_faq_answer Difflib.ratio kb_demo "start streaming" (63 # 100)).
Proof.
  assert (Hle : (1 # 2 <= 63 # 100)%Q) by (intros H; discriminate H).
  assert (Hbest : fst (best_faq_answer Difflib.ratio kb_demo "start streaming" (63 # 100))
                  = Some item_demo) by (vm_compute; reflexivity).
  split; [exact Hle|]. split; [exact Hbest|].
  exact (best_faq_answer_threshold Difflib.ratio kb_demo "start streaming"
           (63 # 100) (1 # 2) item_demo Hle Hbest).
Defined.

(** ** Routing and the form *)

Section FormExtras.

Variable ratio : string -> string -> Q.
Variable CATEGORIES : list Category.
Variable me : option string.

(** X7: an event routed to any handler other than [start_apply] and the four
    handlers of the form leaves the state and the data of the form as they
    were, also when the handler raises. *)
Theorem other_handlers_keep_form (ctx : FSMContext) (event : Event) (h : Handler) :
  route me (state ctx) event = Some h ->
  takes_field_input h = false ->
  h <> h_start_apply ->
  res_ctx (handle ratio CATEGORIES me ctx event) = ctx.
Proof.
  intros R Hf Hs. unfold handle. rewrite R.
  destruct h, event as [m | c]; cbn [run]; try discriminate Hf; try congruence;
    try reflexivity;
    first [ apply pure_on_start | apply pure_on_help | apply pure_on_faq
          | apply pure_cb_faq | apply pure_cb_category | apply pure_cb_item
          | apply pure_contact | apply pure_on_free_text ].
Qed.

(** X8: a message without text (a photo, a sticker) sent while a form is in
    progress, whose caption carries none of the commands [/start], [/help],
    [/faq] and [/apply], reaches the handler of the form's state, which
    raises [AttributeError] at [message.text.strip()] after the log entry:
    nothing is sent, and the state and the data are unchanged. *)
Theorem form_message_without_text (ctx : FSMContext) (s : Apply.t) (m : Message) :
  state ctx = Some s ->
  text m = None ->
  early_command me m = None ->
  handle ratio CATEGORIES me ctx (EvMessage m)
  = mkRes (inl AttributeError) ctx [Incoming None].
Proof.
  intros Hst Htext Hearly. unfold handle, route, message_handlers.
  unfold early_command in Hearly.
  destruct (is_command me "start" m); [discriminate Hearly|].
  destruct (is_command me "help" m); [discriminate Hearly|].
  destruct (is_command me "faq" m); [discriminate Hearly|].
  destruct (is_command me "apply" m); [discriminate Hearly|].
  rewrite Hst. destruct m as [t cap]. cbn in Htext. subst t.
  destruct s; reflexivity.
Qed.

End FormExtras.

Lemma other_handlers_keep_form_witness :
  route bot_name (state ctx_age) (cbq "faq") = Some h_cb_faq
  /\ takes_field_input h_cb_faq = false
  /\ h_cb_faq <> h_start_apply
  /\ res_ctx (handle Difflib.ratio kb_demo bot_name ctx_age (cbq "faq")) = ctx_age.
Proof.
  assert (Hne : h_cb_faq <> h_start_apply) by discriminate.
  split; [reflexivity|]. split; [reflexivity|]. split; [exact Hne|].
  exact (other_handlers_keep_form Difflib.ratio kb_demo bot_name ctx_age
           (cbq "faq") h_cb_faq eq_refl eq_refl Hne).
Defined.

Lemma form_message_without_text_witness :
  let photo := mkMessage None (Some "my photo") in
  state ctx_age = Some Apply.age
  /\ text photo = None
  /\ early_command bot_name photo = None
  /\ handle Difflib.ratio kb_demo bot_name ctx_age (EvMessage photo)
     = mkRes (inl AttributeError) ctx_age [Incoming None].
Proof.
  cbv zeta. split; [reflexivity|]. split; [reflexivity|]. split; [reflexivity|].
  exact (form_message_without_text Difflib.ratio kb_demo bot_name ctx_age Apply.age
           (mkMessage None (Some "my photo")) eq_refl eq_refl eq_refl).
Defined.

(** The [Command] filter reads the caption of a message without text, and
    refuses a command that mentions another bot: a photo with the caption
    [/faq] sent while the age is asked for gets the categories, and
    [/apply@other_bot] is taken as the age. *)
Example caption_and_mention :
  handle Difflib.ratio kb_demo bot_name ctx_age
    (EvMessage (mkMessage None (Some "/faq")))
  = mkRes (inr tt) ctx_age
      [Incoming None;
       Send ChooseCategory (CategoriesKb [Some "General"; None])]
  /\ route bot_name (Some Apply.age) (msg "/apply@other_bot") = Some h_apply_age
  /\ route bot_name (Some Apply.age) (msg "/apply@BigoLive_Bot") = Some h_start_apply
  /\ route None (Some Apply.age) (msg "/apply@other_bot") = Some h_start_apply.
Proof. repeat split. Qed.

(** ** The age *)

(** X9: [apply_age] on a text raises exactly when the stripped text passes
    [isdigit] and is not made of the decimal digits 0..9 alone; it then
    raises [ValueError] after the log entry, sends nothing and leaves the
    storage as it was. A text that passes both is read as an integer that
    is not negative. *)
Theorem apply_age_raises_iff (ctx : FSMContext) (t : string)
    (cap : option string) :
  let s := Text.strip t in
  let r := apply_age (mkMessage (Some t) cap) ctx in
  (res_val r <> inr tt <-> Text.isdigit s = true /\ all_decimal s = false)
  /\ (res_val r <> inr tt ->
      r = mkRes (inl ValueError) ctx [Incoming (Some t)])
  /\ (Text.isdigit s = true -> all_decimal s = true ->
      exists a, Text.int s = Some a /\ 0 <= a).
Proof.
  cbv zeta. set (s := Text.strip t).
  assert (Hint : Text.isdigit s = true -> all_decimal s = true ->
                 exists a, Text.int s = Some a /\ 0 <= a).
  { intros Hd Hall. rewrite (DigitFacts.int_of_digits s Hd).
    apply DigitFacts.int_digits_decimal; [exact Hall | | lia].
    apply (DigitFacts.isdigit_chars s Hd). }
  run_handler. fold s.
  destruct (Text.isdigit s) eqn:Hd; cbn.
  - destruct (all_decimal s) eqn:Hall.
    + destruct (Hint eq_refl eq_refl) as (a & Ha & Hpos). rewrite Ha. cbn.
      split; [|split].
      * split; [|intros [_ H]; discriminate H].
        intros H. exfalso. apply H. destruct (a <? 18); reflexivity.
      * intros H. exfalso. apply H. destruct (a <? 18); reflexivity.
      * eauto.
    + rewrite (DigitFacts.int_of_digits s Hd).
      rewrite (DigitFacts.int_digits_superscript s false 0
                 (proj1 (DigitFacts.isdigit_chars s Hd)) Hall).
      cbn. split; [|split].
      * split; [auto | discriminate].
      * reflexivity.
      * intros _ H. discriminate H.
  - split; [|split].
    + split; [intros H; exfalso; apply H; reflexivity | intros [H _]; discriminate H].
    + intros H. exfalso. apply H. reflexivity.
    + intros H. discriminate H.
Qed.

(** ** What reaches the manager *)

Lemma no_notify_ret {A} (x : A) : no_notify (mret x).
Proof. intros ctx s []. Qed.

Lemma no_notify_raise {A} e : no_notify (@raise A e).
Proof. intros ctx s []. Qed.

Lemma no_notify_or_raise {A} e (x : option A) : no_notify (or_raise e x).
Proof. destruct x; [apply no_notify_ret | apply no_notify_raise]. Qed.

Lemma no_notify_state (s : Apply.t) : no_notify (set_state s).
Proof. intros ctx x []. Qed.

Lemma no_notify_update k v : no_notify (update_data k v).
Proof. intros ctx x []. Qed.

Lemma no_notify_clear : no_notify clear.
Proof. intros ctx x []. Qed.

Lemma no_notify_bind {A B} (m : M A) (f : A -> M B) :
  no_notify m -> (forall a, no_notify (f a)) -> no_notify (m ≫= f).
Proof.
  intros Hm Hf ctx s. unfold mbind, M_bind.
  destruct (res_val (m ctx)) as [e | a] eqn:E; cbn.
  - apply Hm.
  - intros H. apply in_app_or in H as [H | H]; [exact (Hm _ _ H) | exact (Hf _ _ _ H)].
Qed.

Lemma no_notify_send m t kb : no_notify (send_and_log m t kb).
Proof. destruct m; intros ctx s H; [destruct H as [H | []]; discriminate H | destruct H]. Qed.

Lemma no_notify_log m : no_notify (log_and_forward_incoming m).
Proof. destruct m; intros ctx s H; [destruct H as [H | []]; discriminate H | destruct H]. Qed.

Lemma no_notify_answer : no_notify (emit AnswerCallback).
Proof. intros ctx s [H | []]. discriminate H. Qed.

Lemma no_notify_edit t kb : no_notify (emit (EditText t kb)).
Proof. intros ctx s [H | []]. discriminate H. Qed.

Lemma no_notify_photo i c : no_notify (emit (SendPhoto i c)).
Proof. intros ctx s [H | []]. discriminate H. Qed.

Create HintDb notify_db.
#[export] Hint Resolve no_notify_ret no_notify_raise no_notify_or_raise
  no_notify_state no_notify_update no_notify_clear no_notify_send no_notify_log
  no_notify_answer no_notify_edit no_notify_photo : notify_db.
#[export] Hint Extern 2 (no_notify (_ ≫= _)) =>
  apply no_notify_bind; [|intros] : notify_db.
#[export] Hint Extern 3 (no_notify (match ?x with _ => _ end)) =>
  destruct x : notify_db.
#[export] Hint Extern 3 (no_notify (if ?x then _ else _)) =>
  destruct x : notify_db.

Section NotifyFacts.

Variable ratio : string -> string -> Q.
Variable CATEGORIES : list Category.
Variable me : option string.

Lemma fields_typed_fresh : fields_typed fresh.
Proof.
  split; intros v H; cbn in H; rewrite lookup_empty in H; discriminate H.
Qed.

Lemma step_typed ctx ctx' : step ctx ctx' -> fields_typed ctx -> fields_typed ctx'.
Proof.
  intros Hstep [Hn Hc].
  destruct Hstep as [ctx | ctx | ctx t Hs | ctx a Hs Ha | ctx Hs | ctx t Hs | ctx Hs];
    try exact (conj Hn Hc); try exact fields_typed_fresh;
    split; cbn [data]; intros v;
    rewrite ?lookup_insert_eq, ?lookup_insert_ne by discriminate;
    auto; intros H; inversion H; eauto.
Qed.

Lemma handle_all_typed events : forall ctx,
  fields_typed ctx -> fields_typed (handle_all ratio CATEGORIES me ctx events).
Proof.
  induction events as [|e events IH]; intros ctx Hok; [exact Hok|].
  cbn. apply IH. eapply step_typed; [apply handle_step | exact Hok].
Qed.

Lemma no_notify_run h event :
  h <> h_apply_done -> no_notify (run ratio CATEGORIES h event).
Proof.
  intros Hh.
  destruct h, event as [m | c]; cbn [run]; try congruence;
    try apply no_notify_ret;
    unfold on_start, on_help, on_faq, cb_faq, on_faq, cb_category, cb_item,
      start_apply, contact, answer_if_callback, apply_name, apply_age,
      apply_contact, on_free_text, text_strip;
    auto 14 with notify_db.
Qed.

(** X10: whatever the events were, every summary sent to the manager holds
    the four fields, the name, the contact and the experience as strings and
    the age as an integer of 18 or more. *)
Theorem notified_summary_complete (events : list Event) (event : Event) (s : Summary) :
  In (Notify s)
     (res_out (handle ratio CATEGORIES me
                 (handle_all ratio CATEGORIES me fresh events) event)) ->
  complete_summary s.
Proof.
  set (ctx := handle_all ratio CATEGORIES me fresh events).
  assert (Hok : session_ok ctx) by (apply handle_all_ok, fresh_ok).
  assert (Hty : fields_typed ctx) by (apply handle_all_typed, fields_typed_fresh).
  unfold handle.
  destruct (route me (state ctx) event) as [h|] eqn:R; [|intros []].
  assert (Hdec : h = h_apply_done \/ h <> h_apply_done)
    by (destruct h; auto; right; discriminate).
  destruct Hdec as [-> | Hne];
    [|intros H; exfalso; exact (no_notify_run h event Hne ctx s H)].
  pose proof (route_field_state _ _ _ _ R) as Hst. cbn in Hst.
  destruct event as [[[t|] cap] | c]; cbn [run].
  - run_handler.
    destruct Hok as (_ & Hpassed & _ & Hage). destruct Hty as [Hn Hc].
    rewrite Hst in Hpassed. cbn [passed] in Hpassed.
    destruct (Hpassed "name") as [vn Hvn]; [cbn; auto|].
    destruct (Hpassed "age") as [va Hva]; [cbn; auto|].
    destruct (Hpassed "contact") as [vc Hvc]; [cbn; auto|].
    destruct (Hn _ Hvn) as [n ->]. destruct (Hc _ Hvc) as [c ->].
    destruct (Hage _ Hva) as (a & -> & Ha).
    rewrite lookup_insert_eq, !lookup_insert_ne by discriminate.
    rewrite Hvn, Hva, Hvc.
    intros [H | [H | [H | []]]]; try discriminate H.
    inversion H. exists n, a, c, (Text.strip t). auto.
  - run_handler. intros [H | []]. discriminate H.
  - intros [].
Qed.

(** X11: a form filled in after the start action, given by a message or by
    a button under an accessible message, is delivered with the answers of
    this pass only, whatever the storage held before: the stripped name, the
    integer age, the stripped contact and experience; and the storage is
    cleared. *)
Theorem form_answers_replace_data (ctx : FSMContext) (start : Event)
    (n a_text c e : string) (a : Z) :
  is_start_action me start = true ->
  message_accessible start = true ->
  command_of me (mkMessage (Some n) None) = None ->
  command_of me (mkMessage (Some c) None) = None ->
  command_of me (mkMessage (Some e) None) = None ->
  Text.isdigit (Text.strip a_text) = true ->
  Text.int (Text.strip a_text) = Some a ->
  18 <= a ->
  handle ratio CATEGORIES me
    (handle_all ratio CATEGORIES me ctx [start; msg n; msg a_text; msg c]) (msg e)
  = mkRes (inr tt) fresh
      [Incoming (Some e); Send ApplicationSent MainKb;
       Notify (mkSummary (Some (VStr (Text.strip n))) (Some (VInt a))
                 (Some (VStr (Text.strip c))) (Some (VStr (Text.strip e))))].
Proof.
  intros Hstart Hacc Hn Hc He Hd Hint Ha.
  assert (Hplain : forall st t d, command_of me (mkMessage (Some t) None) = None ->
            handle ratio CATEGORIES me (mkCtx (Some st) d) (msg t)
            = run ratio CATEGORIES (form_handler st) (msg t) (mkCtx (Some st) d)).
  { intros st t d H. unfold handle, msg. cbn [state].
    rewrite (route_no_command _ _ _ H). destruct st; reflexivity. }
  assert (H1 : res_ctx (handle ratio CATEGORIES me ctx start)
               = mkCtx (Some Apply.name) (data ctx)).
  { unfold handle. rewrite (start_action_routed _ _ _ Hstart).
    apply start_apply_ctx, Hacc. }
  cbn [handle_all fold_left]. rewrite H1.
  rewrite (Hplain Apply.name n _ Hn). cbn [form_handler run msg].
  replace (res_ctx (apply_name (mkMessage (Some n) None)
                      (mkCtx (Some Apply.name) (data ctx))))
    with (mkCtx (Some Apply.age) (<["name" := VStr (Text.strip n)]> (data ctx)))
    by reflexivity.
  rewrite (Hplain Apply.age a_text _ (digits_no_command me a_text None Hd)).
  cbn [form_handler run msg].
  assert (Hage : forall d,
             res_ctx (apply_age (mkMessage (Some a_text) None)
                        (mkCtx (Some Apply.age) d))
             = mkCtx (Some Apply.contact) (<["age" := VInt a]> d)).
  { intros d. run_handler. rewrite Hd. cbn. rewrite Hint. cbn.
    assert (E : (a <? 18) = false) by (apply Z.ltb_ge; exact Ha).
    rewrite E. reflexivity. }
  rewrite Hage.
  rewrite (Hplain Apply.contact c _ Hc). cbn [form_handler run msg].
  replace (res_ctx (apply_contact (mkMessage (Some c) None)
             (mkCtx (Some Apply.contact)
                (<["age" := VInt a]> (<["name" := VStr (Text.strip n)]> (data ctx))))))
    with (mkCtx (Some Apply.experience)
            (<["contact" := VStr (Text.strip c)]>
               (<["age" := VInt a]> (<["name" := VStr (Text.strip n)]> (data ctx)))))
    by reflexivity.
  rewrite (Hplain Apply.experience e _ He). cbn [form_handler run msg].
  run_handler.
  rewrite lookup_insert_eq.
  rewrite !(lookup_insert_ne _ "experience") by discriminate.
  rewrite lookup_insert_eq.
  rewrite !(lookup_insert_ne _ "contact") by discriminate.
  rewrite lookup_insert_eq.
  rewrite !(lookup_insert_ne _ "age") by discriminate.
  rewrite lookup_insert_eq. reflexivity.
Qed.

End NotifyFacts.

Lemma notified_summary_complete_witness :
  let events := [msg "/apply"; msg "Ivan"; msg "20"; msg "@ivan"] in
  let s := mkSummary (Some (VStr "Ivan")) (Some (VInt 20)) (Some (VStr "@ivan"))
             (Some (VStr "none")) in
  In (Notify s)
     (res_out (handle Difflib.ratio kb_demo bot_name
                 (handle_all Difflib.ratio kb_demo bot_name fresh events)
                 (msg "none")))
  /\ complete_summary s.
Proof.
  cbv zeta.
  assert (Hin : In (Notify (mkSummary (Some (VStr "Ivan")) (Some (VInt 20))
                              (Some (VStr "@ivan")) (Some (VStr "none"))))
                  (res_out (handle Difflib.ratio kb_demo bot_name
                              (handle_all Difflib.ratio kb_demo bot_name fresh
                                 [msg "/apply"; msg "Ivan"; msg "20"; msg "@ivan"])
                              (msg "none"))))
    by (vm_compute; right; right; left; reflexivity).
  split; [exact Hin|].
  exact (notified_summary_complete Difflib.ratio kb_demo bot_name
           [msg "/apply"; msg "Ivan"; msg "20"; msg "@ivan"] (msg "none") _ Hin).
Defined.

Lemma form_answers_replace_data_witness :
  is_start_action bot_name (cbq "apply") = true
  /\ message_accessible (cbq "apply") = true
  /\ Text.int (Text.strip " 20 ") = Some 20
  /\ handle Difflib.ratio kb_demo bot_name
       (handle_all Difflib.ratio kb_demo bot_name ctx_age
          [cbq "apply"; msg " Anna"; msg " 20 "; msg "@anna"]) (msg "two years")
     = mkRes (inr tt) fresh
         [Incoming (Some "two years"); Send ApplicationSent MainKb;
          Notify (mkSummary (Some (VStr "Anna")) (Some (VInt 20))
                    (Some (VStr "@anna")) (Some (VStr "two years")))].
Proof.
  split; [reflexivity|]. split; [reflexivity|]. split; [reflexivity|].
  assert (H18 : 18 <= 20) by lia.
  exact (form_answers_replace_data Difflib.ratio kb_demo bot_name ctx_age
           (cbq "apply") " Anna" " 20 " "@anna" "two years" 20
           eq_refl eq_refl eq_refl eq_refl eq_refl eq_refl eq_refl H18).
Defined.

(** A press of the start button under a message that is no longer
    accessible starts nothing: the handler raises, and the texts that follow
    are not taken as the form. *)
Example start_button_under_old_message :
  handle Difflib.ratio kb_demo bot_name fresh (cbq_old "apply")
  = mkRes (inl AttributeError) fresh []
  /\ route bot_name
       (state (handle_all Difflib.ratio kb_demo bot_name fresh [cbq_old "apply"]))
       (msg "Anna")
     = Some h_on_free_text.
Proof. split; reflexivity. Qed.

(** ** Output texts and button labels *)

Module OutputFacts.
Import Text.

#[local] Arguments ispunct : simpl never.
#[local] Arguments isspace : simpl never.
#[local] Arguments lower_char : simpl never.

Lemma lstrip_length s : (String.length (lstrip s) <= String.length s)%nat.
Proof.
  induction s as [|c s IH]; [apply Nat.le_refl|].
  cbn [lstrip]. destruct (isspace c); cbn [String.length]; lia.
Qed.

Lemma rstrip_length s : (String.length (rstrip s) <= String.length s)%nat.
Proof.
  induction s as [|c s IH]; [apply Nat.le_refl|].
  cbn [rstrip]. destruct (rstrip s) as [|d r].
  - destruct (isspace c); cbn [String.length] in *; lia.
  - cbn [String.length] in *. lia.
Qed.

Lemma collapse_length b s :
  (String.length (collapse_from b s) <= String.length s)%nat.
Proof.
  revert b. induction s as [|c s IH]; intros b; [apply Nat.le_refl|].
  cbn [collapse_from]. destruct (isspace c); [destruct b|];
    cbn [String.length]; specialize (IH true) as IHt;
    pose proof (IH false); lia.
Qed.

Lemma remove_punct_length s :
  (String.length (remove_punct s) <= String.length s)%nat.
Proof.
  induction s as [|c s IH]; [apply Nat.le_refl|].
  cbn [remove_punct]. destruct (ispunct c); cbn [String.length]; lia.
Qed.

Lemma collapse_plain b s : plain_spaces (collapse_from b s) = true.
Proof.
  unfold plain_spaces. revert b.
  induction s as [|c s IH]; intros b; [reflexivity|].
  cbn [collapse_from]. destruct (isspace c) eqn:E; [destruct b|].
  - apply IH.
  - cbn [forall_chars]. rewrite IH. reflexivity.
  - cbn [forall_chars]. rewrite E, IH. reflexivity.
Qed.

Lemma remove_punct_keeps p s :
  forall_chars p s = true -> forall_chars p (remove_punct s) = true.
Proof.
  induction s as [|c s IH]; [reflexivity|].
  cbn [forall_chars remove_punct]. intros H.
  apply andb_true_iff in H as [Hc Hs].
  destruct (ispunct c); [apply IH, Hs|].
  cbn [forall_chars]. rewrite Hc. apply IH, Hs.
Qed.

Lemma escape_one_line s : one_line (escape_newlines s) = true.
Proof.
  unfold one_line. induction s as [|c s IH]; [reflexivity|].
  cbn [escape_newlines]. destruct (Ascii.eqb c (ascii_of_N 10)) eqn:E.
  - cbn [forall_chars]. rewrite IH. reflexivity.
  - cbn [forall_chars]. rewrite E, IH. reflexivity.
Qed.

Lemma escape_id s : one_line s = true -> escape_newlines s = s.
Proof.
  unfold one_line. induction s as [|c s IH]; [reflexivity|].
  cbn [forall_chars escape_newlines]. intros H.
  apply andb_true_iff in H as [Hc Hs]. apply negb_true_iff in Hc.
  rewrite Hc, (IH Hs). reflexivity.
Qed.

Lemma split_on_cons sep s : exists w ws, split_on sep s = w :: ws.
Proof.
  induction s as [|c s (w & ws & IH)]; [eexists _, _; reflexivity|].
  cbn [split_on]. destruct (Ascii.eqb c sep); [eexists _, _; reflexivity|].
  rewrite IH. eexists _, _; reflexivity.
Qed.

Lemma join_cons_char sep c w ws :
  join sep (String c w :: ws) = String c (join sep (w :: ws)).
Proof. destruct ws; reflexivity. Qed.

(** [replace] is [split] then [join]: the pieces between the line feeds,
    joined by the two characters. *)
Lemma escape_join s :
  escape_newlines s = join backslash_n (split_on (ascii_of_N 10) s).
Proof.
  induction s as [|c s IH]; [reflexivity|].
  cbn [escape_newlines split_on].
  destruct (split_on_cons (ascii_of_N 10) s) as (w & ws & E).
  rewrite E in *. destruct (Ascii.eqb c (ascii_of_N 10)).
  - rewrite IH. reflexivity.
  - rewrite join_cons_char, IH. reflexivity.
Qed.

End OutputFacts.

(** X12: the result of [normalize] is in lower case, holds none of the
    punctuation characters, has no whitespace but plain spaces, and is never
    longer than the lowered text. *)
Theorem normalize_output (u : string) :
  Text.lower (normalize u) = normalize u
  /\ Text.no_punct (normalize u) = true
  /\ plain_spaces (normalize u) = true
  /\ (String.length (normalize u) <= String.length (Text.lower u))%nat.
Proof.
  split; [apply NormalizeFacts.normalize_lower|].
  split; [apply NormalizeFacts.normalize_no_punct|].
  unfold normalize. split.
  - apply OutputFacts.remove_punct_keeps, OutputFacts.collapse_plain.
  - pose proof (OutputFacts.remove_punct_length
                  (Text.collapse_spaces (Text.strip (Text.lower u)))).
    pose proof (OutputFacts.collapse_length false (Text.strip (Text.lower u))).
    pose proof (OutputFacts.rstrip_length (Text.lstrip (Text.lower u))).
    pose proof (OutputFacts.lstrip_length (Text.lower u)).
    unfold Text.collapse_spaces, Text.strip in *. lia.
Qed.

(** X13: the text [log_message] writes for a text that is not empty is the
    pieces of the text between its line feeds, joined by a backslash and the
    letter n: every line feed is replaced by these two characters and
    nothing else is changed. So the written text holds no line feed, and a
    text without line feeds is written as it is. A missing or empty text is
    replaced by the fixed words. *)
Theorem clean_text_one_line (text : option string) :
  match clean_text text with
  | Logged s =>
      exists t, text = Some t /\ t <> ""
                /\ s = join backslash_n (Text.split_on (ascii_of_N 10) t)
                /\ one_line s = true
                /\ (one_line t = true -> s = t)
  | NoText => text = None \/ text = Some ""
  end.
Proof.
  destruct text as [[|c t]|]; cbn [clean_text]; auto.
  exists (String c t). split; [reflexivity|]. split; [discriminate|].
  split; [apply OutputFacts.escape_join|].
  split; [apply OutputFacts.escape_one_line | apply OutputFacts.escape_id].
Qed.

(** A text of two lines is written with the line feed as two characters. *)
Example clean_text_two_lines :
  clean_text (Some (String "a" (String (ascii_of_N 10) "b")))
  = Logged (String "a" (String (ascii_of_N 92) "nb")).
Proof. reflexivity. Qed.

Section CategoryMenu.

Lemma first_pattern_cases item :
  first_pattern item
  = match item_patterns item with
    | Some [] => None
    | Some (p :: _) => Some (Pattern p)
    | None => Some DefaultWord
    end.
Proof. unfold first_pattern. destruct (item_patterns item) as [[|p ps]|]; reflexivity. Qed.

Lemma first_patterns_length items : forall labels,
  first_patterns items = Some labels -> length labels = length items.
Proof.
  induction items as [|item items IH]; intros labels H.
  - inversion H. reflexivity.
  - cbn [first_patterns] in H.
    destruct (first_pattern item); [|discriminate H].
    destruct (first_patterns items) as [ls|]; [|discriminate H].
    inversion H. cbn [length]. f_equal. apply IH. reflexivity.
Qed.

(** X14: the texts of a category's buttons exist unless some item has an
    empty list of patterns, in which case [cb_category] fails with
    [IndexError]; there are as many texts as items, in order, each the
    capitalised first pattern of its item, or the capitalised default word
    for an item without the key "patterns". *)
Theorem first_patterns_cases (items : list Item) :
  (first_patterns items = None <->
   exists item, In item items /\ item_patterns item = Some [])
  /\ (forall labels, first_patterns items = Some labels ->
        length labels = length items
        /\ forall i item, items !! i = Some item ->
             labels !! i
             = Some (Capitalize match item_patterns item with
                                | Some (p :: _) => Pattern p
                                | _ => DefaultWord
                                end)).
Proof.
  induction items as [|item items [IHn IHs]].
  - split.
    + split; [discriminate | intros (x & [] & _)].
    + intros labels H. inversion H. split; [reflexivity|].
      intros i x Hx. destruct i; discriminate Hx.
  - cbn [first_patterns]. rewrite first_pattern_cases.
    destruct (item_patterns item) as [[|p ps]|] eqn:E; cbn [mbind option_bind].
    + split.
      * split; [|reflexivity]. intros _. exists item.
        split; [left; reflexivity | exact E].
      * intros labels H. discriminate H.
    + destruct (first_patterns items) as [ls|] eqn:F; cbn [mbind option_bind].
      * split.
        -- split; [discriminate|]. intros (x & [<- | Hx] & Hp); [congruence|].
           assert (Hbad : Some ls = None) by (apply IHn; eauto).
           discriminate Hbad.
        -- intros labels H. inversion H; subst labels.
           destruct (IHs ls eq_refl) as [Hlen Hl]. split; [cbn; lia|].
           intros [|i] x Hx; cbn in *;
             [inversion Hx; subst x; rewrite E; reflexivity|].
           apply Hl, Hx.
      * split.
        -- split; [|reflexivity]. intros _.
           destruct (proj1 IHn eq_refl) as (x & Hx & Hp).
           exists x. split; [right; exact Hx | exact Hp].
        -- intros labels H. discriminate H.
    + destruct (first_patterns items) as [ls|] eqn:F; cbn [mbind option_bind].
      * split.
        -- split; [discriminate|]. intros (x & [<- | Hx] & Hp); [congruence|].
           assert (Hbad : Some ls = None) by (apply IHn; eauto).
           discriminate Hbad.
        -- intros labels H. inversion H; subst labels.
           destruct (IHs ls eq_refl) as [Hlen Hl]. split; [cbn; lia|].
           intros [|i] x Hx; cbn in *;
             [inversion Hx; subst x; rewrite E; reflexivity|].
           apply Hl, Hx.
      * split.
        -- split; [|reflexivity]. intros _.
           destruct (proj1 IHn eq_refl) as (x & Hx & Hp).
           exists x. split; [right; exact Hx | exact Hp].
        -- intros labels H. discriminate H.
Qed.

End CategoryMenu.

(** ** The menu's callback data *)

Module StrIntFacts.
Import Text.


Lemma digit_char_decimal d : 0 <= d <= 9 -> isdecimal_char (digit_char d) = true.
Proof. intros H. each_digit d H. Qed.

Lemma digit_char_value d : 0 <= d <= 9 -> digit_value (digit_char d) = d.
Proof. intros H. each_digit d H. Qed.

Lemma digit_char_no_colon d : 0 <= d <= 9 -> Ascii.eqb (digit_char d) ":" = false.
Proof. intros H. each_digit d H. Qed.

Lemma append_assoc (a b c : string) : (a ++ b) ++ c = a ++ (b ++ c).
Proof.
  induction a as [|x a IH]; [reflexivity|].
  change (String x ((a ++ b) ++ c) = String x (a ++ (b ++ c))). f_equal. exact IH.
Qed.

Lemma append_empty (a : string) : a ++ "" = a.
Proof.
  induction a as [|x a IH]; [reflexivity|].
  change (String x (a ++ "") = String x a). f_equal. exact IH.
Qed.

Lemma forall_chars_app p a b :
  forall_chars p (a ++ b) = forall_chars p a && forall_chars p b.
Proof.
  induction a as [|x a IH]; [reflexivity|].
  change (p x && forall_chars p (a ++ b) = p x && forall_chars p a && forall_chars p b).
  rewrite IH. apply andb_assoc.
Qed.

(** The digits [str_digits] writes, and how [int] reads them back. *)
Lemma str_digits_spec fuel : forall n acc,
  0 <= n -> (Z.to_nat n < fuel)%nat ->
  exists ds k,
    str_digits fuel n acc = ds ++ acc
    /\ all_decimal ds = true
    /\ ds <> ""
    /\ 0 <= k
    /\ forall b a0 rest,
         int_digits b a0 (ds ++ rest) = int_digits true (a0 * 10 ^ k + n) rest.
Proof.
  induction fuel as [|fuel IH]; intros n acc Hn Hfuel; [lia|].
  cbn [str_digits].
  assert (Hd : 0 <= n mod 10 <= 9) by (pose proof (Z.mod_pos_bound n 10); lia).
  destruct (n <? 10) eqn:E.
  - apply Z.ltb_lt in E. rewrite Z.mod_small by lia.
    exists (String (digit_char n) ""), 1. split; [reflexivity|].
    assert (Hn9 : 0 <= n <= 9) by lia.
    split; [unfold all_decimal; cbn; rewrite digit_char_decimal by lia; reflexivity|].
    split; [discriminate|]. split; [lia|].
    intros b a0 rest.
    change (String (digit_char n) "" ++ rest) with (String (digit_char n) rest).
    cbn [int_digits].
    rewrite digit_char_decimal, digit_char_value by lia.
    f_equal. lia.
  - apply Z.ltb_ge in E.
    assert (Hq : 0 <= n / 10 < n) by (split; [apply Z.div_pos; lia | apply Z.div_lt; lia]).
    destruct (IH (n / 10) (String (digit_char (n mod 10)) acc))
      as (ds & k & Hs & Hall & Hne & Hk & Hparse); [lia | lia |].
    exists (ds ++ String (digit_char (n mod 10)) ""), (k + 1).
    split; [rewrite Hs, append_assoc; reflexivity|].
    split.
    { unfold all_decimal in *. rewrite forall_chars_app, Hall. cbn.
      rewrite digit_char_decimal by lia. reflexivity. }
    split; [destruct ds; [contradiction | discriminate]|].
    split; [lia|].
    intros b a0 rest. rewrite append_assoc.
    change (String (digit_char (n mod 10)) "" ++ rest)
      with (String (digit_char (n mod 10)) rest).
    rewrite Hparse. cbn [int_digits].
    rewrite digit_char_decimal, digit_char_value by lia.
    f_equal. rewrite Z.pow_add_r by lia.
    pose proof (Z.div_mod n 10). lia.
Qed.

Lemma str_digits_nat n :
  0 <= n ->
  exists ds, str_digits (S (Z.to_nat n)) n "" = ds
    /\ all_decimal ds = true /\ ds <> ""
    /\ int_digits false 0 ds = Some n.
Proof.
  intros Hn.
  destruct (str_digits_spec (S (Z.to_nat n)) n "" Hn)
    as (ds & k & Hs & Hall & Hne & Hk & Hparse); [lia|].
  rewrite append_empty in Hs. exists ds. repeat split; auto.
  specialize (Hparse false 0 ""). rewrite append_empty in Hparse.
  rewrite Hparse. cbn. f_equal.
Qed.

Lemma decimal_isdigit ds : all_decimal ds = true -> ds <> "" -> isdigit ds = true.
Proof.
  intros Hall Hne. destruct ds as [|c ds]; [contradiction|].
  unfold isdigit, all_decimal in *.
  revert Hall. generalize (String c ds). intros s.
  induction s as [|x s IH]; [reflexivity|]. cbn. intros H.
  apply andb_true_iff in H as [Hx Hs].
  rewrite (DigitFacts.decimal_is_digit x Hx), (IH Hs). reflexivity.
Qed.

Lemma decimal_no_colon ds : all_decimal ds = true -> no_colon ds = true.
Proof.
  unfold all_decimal, no_colon. induction ds as [|c ds IH]; [reflexivity|].
  cbn [forall_chars]. intros H. apply andb_true_iff in H as [Hc Hs].
  rewrite (IH Hs), andb_true_r.
  destruct (Ascii.eqb_spec c ":") as [-> | _]; [discriminate Hc | reflexivity].
Qed.

(** [int] reads back what [str] writes. *)
Lemma int_str_int n : int (str_int n) = Some n.
Proof.
  unfold str_int. destruct (n <? 0) eqn:E.
  - apply Z.ltb_lt in E.
    destruct (str_digits_nat (- n)) as (ds & -> & Hall & Hne & Hparse); [lia|].
    unfold int.
    assert (Hsp : no_space (String "-" ds) = true).
    { unfold no_space. cbn [forall_chars].
      apply (DigitFacts.digits_no_space ds).
      apply (DigitFacts.isdigit_chars ds), decimal_isdigit; assumption. }
    rewrite (DigitFacts.no_space_strip _ Hsp). rewrite Hparse. cbn. f_equal. lia.
  - apply Z.ltb_ge in E.
    destruct (str_digits_nat n E) as (ds & -> & Hall & Hne & Hparse).
    rewrite (DigitFacts.int_of_digits ds (decimal_isdigit ds Hall Hne)).
    exact Hparse.
Qed.

Lemma str_int_no_colon n : no_colon (str_int n) = true.
Proof.
  unfold str_int. destruct (n <? 0) eqn:E.
  - apply Z.ltb_lt in E.
    destruct (str_digits_nat (- n)) as (ds & -> & Hall & _); [lia|].
    unfold no_colon. cbn [forall_chars]. apply (decimal_no_colon ds Hall).
  - apply Z.ltb_ge in E.
    destruct (str_digits_nat n E) as (ds & -> & Hall & _).
    apply decimal_no_colon, Hall.
Qed.

Lemma split_no_colon s : no_colon s = true -> split_on ":" s = [s].
Proof.
  unfold no_colon. induction s as [|c s IH]; [reflexivity|].
  cbn [forall_chars split_on]. intros H. apply andb_true_iff in H as [Hc Hs].
  apply negb_true_iff in Hc. rewrite Hc, (IH Hs). reflexivity.
Qed.

Lemma split_at_colon s t :
  no_colon s = true -> split_on ":" (s ++ String ":" t) = s :: split_on ":" t.
Proof.
  unfold no_colon. induction s as [|c s IH]; [reflexivity|].
  change (String c s ++ String ":" t) with (String c (s ++ String ":" t)).
  cbn [forall_chars split_on]. intros H.
  apply andb_true_iff in H as [Hc Hs].
  apply negb_true_iff in Hc. rewrite Hc, (IH Hs). reflexivity.
Qed.

Lemma split_cat_callback n :
  split_on ":" ("cat:" ++ str_int n) = ["cat"; str_int n].
Proof.
  change ("cat:" ++ str_int n) with ("cat" ++ String ":" (str_int n)).
  rewrite split_at_colon by reflexivity.
  rewrite (split_no_colon _ (str_int_no_colon n)). reflexivity.
Qed.

Lemma split_item_callback a b :
  split_on ":" ("item:" ++ str_int a ++ ":" ++ str_int b)
  = ["item"; str_int a; str_int b].
Proof.
  change ("item:" ++ str_int a ++ ":" ++ str_int b)
    with ("item" ++ String ":" (str_int a ++ String ":" (str_int b))).
  rewrite split_at_colon by reflexivity.
  rewrite (split_at_colon _ _ (str_int_no_colon a)).
  rewrite (split_no_colon _ (str_int_no_colon b)). reflexivity.
Qed.

End StrIntFacts.

Section MenuFacts.

Variable ratio : string -> string -> Q.
Variable CATEGORIES : list Category.
Variable me : option string.

Lemma getitem_nat {A} (l : list A) (i : nat) : getitem l (Z.of_nat i) = l !! i.
Proof.
  unfold getitem. assert (E : (0 <=? Z.of_nat i) = true) by (apply Z.leb_le; lia).
  rewrite E, Nat2Z.id. reflexivity.
Qed.

(** X15: every button of the category keyboard that [on_faq] sends leads, in
    any state of the form, to [cb_category] for the category at the button's
    position. The handler fails with [IndexError] when one of the category's
    items has an empty list of patterns; else with [AttributeError], before
    anything is sent, when the message the button is under is not
    accessible; else it shows the category's title with the keyboard of the
    capitalised first patterns and answers the callback. The storage is
    untouched in each case. *)
Theorem category_button_opens_category (ctx : FSMContext) (d : string)
    (message : option Message) :
  In d (category_buttons (map cat_title CATEGORIES)) ->
  exists i cat,
    CATEGORIES !! i = Some cat
    /\ d = cat_callback i
    /\ handle ratio CATEGORIES me ctx (EvCallback (mkCallback (Some d) message))
       = match first_patterns (get_or (cat_items cat) []), message with
         | None, _ => mkRes (inl IndexError) ctx []
         | Some _, None => mkRes (inl AttributeError) ctx []
         | Some labels, Some _ =>
             mkRes (inr tt) ctx
               [Send (CategoryTitle (cat_title cat)) NoMarkup;
                EditText (CategoryTitle (cat_title cat))
                  (ItemsKb (Z.of_nat i) labels);
                AnswerCallback]
         end.
Proof.
  unfold category_buttons. rewrite length_map. intros Hin.
  apply in_map_iff in Hin as (i & <- & Hi). apply in_seq in Hi.
  destruct (lookup_lt_is_Some_2 CATEGORIES i) as [cat Hcat]; [lia|].
  exists i, cat. split; [exact Hcat|]. split; [reflexivity|].
  unfold handle, cat_callback.
  assert (R : route me (state ctx)
                (EvCallback (mkCallback (Some ("cat:" ++ str_int (Z.of_nat i))) message))
              = Some h_cb_category) by reflexivity.
  rewrite R. cbn [run]. unfold cb_category.
  unfold mbind, M_bind, or_raise, mret, M_ret.
  cbn [cb_data cb_message res_val res_ctx res_out].
  rewrite StrIntFacts.split_cat_callback. cbn [lookup list_lookup res_val res_ctx res_out].
  rewrite StrIntFacts.int_str_int. cbn [res_val res_ctx res_out].
  rewrite getitem_nat, Hcat. cbn [res_val res_ctx res_out].
  destruct (first_patterns (get_or (cat_items cat) [])); [|reflexivity].
  destruct message; reflexivity.
Qed.

(** X16: every item button of the keyboard that [cb_category] sends for a
    category leads, in any state of the form, to [cb_item], which finds the
    item at the button's position: no such button fails on its indices. The
    handler sends the item's answer and answers the callback when the
    message the button is under is accessible, and raises [AttributeError]
    with nothing sent when it is not. The storage is untouched. The back
    button leads to [cb_faq]. *)
Theorem item_button_sends_answer (ctx : FSMContext) (idx : Z) (cat : Category)
    (labels : list Label) (d : string) (message : option Message) :
  getitem CATEGORIES idx = Some cat ->
  first_patterns (get_or (cat_items cat) []) = Some labels ->
  In d (item_buttons idx labels) ->
  (d = "faq"
   /\ route me (state ctx) (EvCallback (mkCallback (Some d) message)) = Some h_cb_faq)
  \/ exists i item,
       get_or (cat_items cat) [] !! i = Some item
       /\ d = item_callback idx i
       /\ handle ratio CATEGORIES me ctx (EvCallback (mkCallback (Some d) message))
          = match message with
            | Some _ =>
                mkRes (inr tt) ctx
                  [Send (FaqAnswer (get_or (item_answer item) "")) MainKb;
                   AnswerCallback]
            | None => mkRes (inl AttributeError) ctx []
            end.
Proof.
  intros Hcat Hlabels Hin. unfold item_buttons in Hin.
  apply in_app_or in Hin as [Hin | [<- | []]]; [|left; split; reflexivity].
  right. apply in_map_iff in Hin as (i & <- & Hi). apply in_seq in Hi.
  pose proof (first_patterns_length _ _ Hlabels) as Hlen.
  destruct (lookup_lt_is_Some_2 (get_or (cat_items cat) []) i) as [item Hitem]; [lia|].
  exists i, item. split; [exact Hitem|]. split; [reflexivity|].
  assert (Hitems : exists items, cat_items cat = Some items /\ items !! i = Some item).
  { destruct (cat_items cat) as [items|]; [eauto|].
    cbn in Hitem. destruct i; discriminate Hitem. }
  destruct Hitems as (items & Hci & Hit).
  unfold handle, item_callback.
  assert (R : route me (state ctx)
                (EvCallback (mkCallback
                   (Some ("item:" ++ str_int idx ++ ":" ++ str_int (Z.of_nat i)))
                   message))
              = Some h_cb_item) by reflexivity.
  rewrite R. cbn [run]. unfold cb_item.
  unfold mbind, M_bind, or_raise, mret, M_ret.
  cbn [cb_data cb_message res_val res_ctx res_out].
  rewrite StrIntFacts.split_item_callback.
  rewrite !StrIntFacts.int_str_int. cbn [res_val res_ctx res_out].
  unfold item_at. rewrite Hcat, Hci, getitem_nat, Hit.
  destruct message; reflexivity.
Qed.

End MenuFacts.

Lemma category_button_opens_category_witness :
  In "cat:0" (category_buttons (map cat_title kb_demo))
  /\ exists i cat,
       kb_demo !! i = Some cat
       /\ "cat:0" = cat_callback i
       /\ handle Difflib.ratio kb_demo bot_name ctx_age (cbq "cat:0")
          = match first_patterns (get_or (cat_items cat) []), Some menu_message with
            | None, _ => mkRes (inl IndexError) ctx_age []
            | Some _, None => mkRes (inl AttributeError) ctx_age []
            | Some labels, Some _ =>
                mkRes (inr tt) ctx_age
                  [Send (CategoryTitle (cat_title cat)) NoMarkup;
                   EditText (CategoryTitle (cat_title cat))
                     (ItemsKb (Z.of_nat i) labels);
                   AnswerCallback]
            end.
Proof.
  assert (Hin : In "cat:0" (category_buttons (map cat_title kb_demo)))
    by (left; reflexivity).
  split; [exact Hin|].
  exact (category_button_opens_category Difflib.ratio kb_demo bot_name ctx_age
           "cat:0" (Some menu_message) Hin).
Defined.

Lemma item_button_sends_answer_witness :
  let cat := mkCategory (Some "General") (Some [item_demo]) in
  let labels := [Capitalize (Pattern "How to start?")] in
  getitem kb_demo 0 = Some cat
  /\ first_patterns (get_or (cat_items cat) []) = Some labels
  /\ In "item:0:0" (item_buttons 0 labels)
  /\ (("item:0:0" = "faq"
       /\ route bot_name (state fresh) (cbq "item:0:0") = Some h_cb_faq)
      \/ exists i item,
           get_or (cat_items cat) [] !! i = Some item
           /\ "item:0:0" = item_callback 0 i
           /\ handle Difflib.ratio kb_demo bot_name fresh (cbq "item:0:0")
              = match Some menu_message with
                | Some _ =>
                    mkRes (inr tt) fresh
                      [Send (FaqAnswer (get_or (item_answer item) "")) MainKb;
                       AnswerCallback]
                | None => mkRes (inl AttributeError) fresh []
                end).
Proof.
  cbv zeta.
  assert (Hin : In "item:0:0"
                  (item_buttons 0 [Capitalize (Pattern "How to start?")]))
    by (left; reflexivity).
  split; [reflexivity|]. split; [reflexivity|]. split; [exact Hin|].
  exact (item_button_sends_answer Difflib.ratio kb_demo bot_name fresh 0
           (mkCategory (Some "General") (Some [item_demo]))
           [Capitalize (Pattern "How to start?")] "item:0:0" (Some menu_message)
           eq_refl eq_refl Hin).
Defined.

(** The menu of the sample knowledge base, opened and used: the category
    button shows the capitalised first pattern, the item button sends the
    answer, and the same button under a message that is no longer
    accessible sends nothing. *)
Example menu_demo :
  handle Difflib.ratio kb_demo bot_name fresh (cbq "cat:0")
  = mkRes (inr tt) fresh
      [Send (CategoryTitle (Some "General")) NoMarkup;
       EditText (CategoryTitle (Some "General"))
         (ItemsKb 0 [Capitalize (Pattern "How to start?")]);
       AnswerCallback]
  /\ handle Difflib.ratio kb_demo bot_name fresh (cbq "item:0:0")
     = mkRes (inr tt) fresh [Send (FaqAnswer "Press Go Live.") MainKb; AnswerCallback]
  /\ handle Difflib.ratio kb_demo bot_name fresh (cbq_old "item:0:0")
     = mkRes (inl AttributeError) fresh []
  /\ handle Difflib.ratio kb_demo bot_name fresh (cbq "faq")
     = mkRes (inr tt) fresh
         [Incoming (Some "Menu");
          Send ChooseCategory (CategoriesKb [Some "General"; None]);
          AnswerCallback].
Proof. repeat split. Qed.
